(** * Notion synchronisation engine of claude-task-master: a shallow embedding

    The development follows [scripts/modules/notion.js],
    [scripts/modules/notion-operations.js],
    [scripts/modules/notion-base-command.js] and
    [scripts/modules/notion-reset-command.js].

    [notion.js] is present in two revisions.  They differ, for the functions
    embedded here, in one place only: the later revision filters subtasks
    without an id out of the flattening ([validSubtasks]).  The flattener
    below takes the revision as a parameter. *)

From stdpp Require Import gmap strings.
From Stdlib Require Import ZArith List String Ascii Bool Lia DecimalString.
Import ListNotations.

Local Open Scope string_scope.
Local Open Scope list_scope.

(** ** JavaScript values *)

Module JS.

(** The primitive values a task file (JSON) can hold in a scalar position.
    Numbers are the integers; JSON has no NaN, so strict equality [===] on
    these values is structural equality. *)
Inductive jsval : Type :=
| JUndefined
| JNull
| JBool (b : bool)
| JNum (n : Z)
| JStr (s : string).

Definition jsval_eqb (a b : jsval) : bool :=
  match a, b with
  | JUndefined, JUndefined => true
  | JNull, JNull => true
  | JBool x, JBool y => Bool.eqb x y
  | JNum x, JNum y => Z.eqb x y
  | JStr x, JStr y => String.eqb x y
  | _, _ => false
  end.

(** [a === b] and [a !== b]. *)
Definition strictEq (a b : jsval) : bool := jsval_eqb a b.
Definition strictNe (a b : jsval) : bool := negb (jsval_eqb a b).

(** Truthiness, as used by [!v], [v || w] and [v ? a : b]. *)
Definition truthy (v : jsval) : bool :=
  match v with
  | JUndefined | JNull => false
  | JBool b => b
  | JNum n => negb (Z.eqb n 0)
  | JStr s => negb (String.eqb s "")
  end.

(** [v || w] *)
Definition jsOr (v w : jsval) : jsval := if truthy v then v else w.

Definition isString (v : jsval) : bool :=
  match v with JStr _ => true | _ => false end.
Definition isNumber (v : jsval) : bool :=
  match v with JNum _ => true | _ => false end.
Definition isUndefined (v : jsval) : bool :=
  match v with JUndefined => true | _ => false end.

(** Decimal rendering of an integer, as a template literal prints it. *)
Definition numToString (n : Z) : string := NilZero.string_of_int (Z.to_int n).

(** [`${v}`] *)
Definition toString (v : jsval) : string :=
  match v with
  | JUndefined => "undefined"
  | JNull => "null"
  | JBool true => "true"
  | JBool false => "false"
  | JNum n => numToString n
  | JStr s => s
  end.

Definition isDigit (c : ascii) : bool :=
  (Nat.leb 48 (nat_of_ascii c) && Nat.leb (nat_of_ascii c) 57)%bool.

Fixpoint allDigits (s : string) : bool :=
  match s with
  | EmptyString => true
  | String c r => (isDigit c && allDigits r)%bool
  end.

(** [/^\d+$/.test(s)] *)
Definition testDigits (s : string) : bool :=
  match s with
  | EmptyString => false
  | _ => allDigits s
  end.

Fixpoint parseDigits (acc : Z) (s : string) : Z :=
  match s with
  | EmptyString => acc
  | String c r => parseDigits (10 * acc + (Z.of_nat (nat_of_ascii c) - 48)) r
  end.

(** [s.includes(c)] for a one-character needle. *)
Fixpoint includesChar (c : ascii) (s : string) : bool :=
  match s with
  | EmptyString => false
  | String d r => (Ascii.eqb d c || includesChar c r)%bool
  end.

(** [Number(v)] where the source calls it: on a number or on a string of
    digits.  [None] stands for every other outcome, which no id equals. *)
Definition toNumber (v : jsval) : option Z :=
  match v with
  | JNum n => Some n
  | JStr s => if testDigits s then Some (parseDigits 0 s) else None
  | _ => None
  end.

(** [arr.includes(v)] *)
Definition includes (v : jsval) (arr : list jsval) : bool :=
  existsb (jsval_eqb v) arr.

Lemma jsval_eqb_refl v : jsval_eqb v v = true.
Proof.
  destruct v; simpl; auto using Bool.eqb_reflx, Z.eqb_refl, String.eqb_refl.
Qed.

Lemma jsval_eqb_eq a b : jsval_eqb a b = true <-> a = b.
Proof.
  split.
  - destruct a, b; simpl; intros H; try discriminate; auto.
    + apply Bool.eqb_prop in H. congruence.
    + apply Z.eqb_eq in H. congruence.
    + apply String.eqb_eq in H. congruence.
  - intros ->. apply jsval_eqb_refl.
Qed.

Lemma jsval_eqb_neq a b : jsval_eqb a b = false <-> a <> b.
Proof.
  rewrite <- jsval_eqb_eq. destruct (jsval_eqb a b); split; congruence.
Qed.

Lemma includes_In v arr : includes v arr = true <-> In v arr.
Proof.
  unfold includes. rewrite existsb_exists. split.
  - intros [x [Hin Heq]]. apply jsval_eqb_eq in Heq. now subst.
  - intros Hin. exists v. split; auto using jsval_eqb_refl.
Qed.

(** A JavaScript [Map]: entries in insertion order, keys compared with
    SameValueZero.  [set] on a present key keeps its position. *)
Section JSMap.
Context {V : Type}.

Definition JSMap := list (jsval * V).

Fixpoint map_set (k : jsval) (v : V) (m : JSMap) : JSMap :=
  match m with
  | [] => [(k, v)]
  | (k', v') :: r =>
      if jsval_eqb k k' then (k, v) :: r else (k', v') :: map_set k v r
  end.

Fixpoint map_get (k : jsval) (m : JSMap) : option V :=
  match m with
  | [] => None
  | (k', v') :: r => if jsval_eqb k k' then Some v' else map_get k r
  end.

Definition map_has (k : jsval) (m : JSMap) : bool :=
  match map_get k m with Some _ => true | None => false end.

Definition map_keys (m : JSMap) : list jsval := List.map fst m.

Lemma map_keys_set k v m :
  map_keys (map_set k v m) =
  if includes k (map_keys m) then map_keys m else map_keys m ++ [k].
Proof.
  induction m as [|[k' v'] r IH]; simpl; auto.
  destruct (jsval_eqb k k') eqn:E; simpl.
  - apply jsval_eqb_eq in E. now subst.
  - rewrite IH. now destruct (includes k (map_keys r)).
Qed.

Lemma map_set_NoDup k v m : NoDup (map_keys m) -> NoDup (map_keys (map_set k v m)).
Proof.
  intros H. rewrite map_keys_set.
  destruct (includes k (map_keys m)) eqn:E; auto.
  apply List.NoDup_app; auto.
  - constructor; [intros []|constructor].
  - intros x Hx [<-|[]]. apply includes_In in Hx. congruence.
Qed.

Lemma map_get_entry k v m :
  NoDup (map_keys m) -> In (k, v) m -> map_get k m = Some v.
Proof.
  induction m as [|[k' v'] r IH]; simpl; [tauto|].
  intros Hnd [Heq|Hin].
  - inversion Heq; subst. now rewrite jsval_eqb_refl.
  - inversion Hnd as [|? ? Hnotin Hnd']; subst.
    destruct (jsval_eqb k k') eqn:E.
    + apply jsval_eqb_eq in E. subst. exfalso. apply Hnotin.
      change k' with (fst (k', v)). now apply in_map.
    + auto.
Qed.
End JSMap.

Arguments JSMap : clear implicits.

End JS.

(** ** Snapshot flattener ([flattenTasksWithTag], [flattenTasksMap]) *)

Module Flatten.
Import JS.

(** A subtask as stored in the task file.  [st_dependencies] is [None] when
    the field is not an array. *)
Record Subtask : Type := mkSubtask {
  st_id : jsval;
  st_title : jsval;
  st_description : jsval;
  st_details : jsval;
  st_testStrategy : jsval;
  st_priority : jsval;
  st_status : jsval;
  st_dependencies : option (list jsval)
}.

(** A top-level task.  [t_subtasks] is [None] when the field is not an
    array. *)
Record Task : Type := mkTask {
  t_id : jsval;
  t_title : jsval;
  t_description : jsval;
  t_details : jsval;
  t_testStrategy : jsval;
  t_priority : jsval;
  t_status : jsval;
  t_dependencies : option (list jsval);
  t_subtasks : option (list Subtask)
}.

(** The object the flattener builds for a task or a subtask: the spread of
    the source object with the rewritten fields on top. *)
Record FlatTask : Type := mkFlatTask {
  f_id : jsval;
  f_title : jsval;
  f_description : jsval;
  f_details : jsval;
  f_testStrategy : jsval;
  f_priority : jsval;
  f_status : jsval;
  f_dependencies : option (list jsval);
  f_subtasks : option (list jsval);
  f_parentId : jsval;
  f_isSubtask : bool
}.

(** [{ id, task, tag }] *)
Record Entity : Type := mkEntity {
  e_id : jsval;
  e_task : FlatTask;
  e_tag : string
}.

(** The two revisions of [notion.js]. *)
Inductive revision : Type := RevFirst | RevSecond.

(** [st.id !== undefined && st.id !== null] *)
Definition hasId (st : Subtask) : bool :=
  (strictNe (st_id st) JUndefined && strictNe (st_id st) JNull)%bool.

(** The subtasks the loops run over: all of them in the first revision,
    [t.subtasks.filter(st => st.id !== undefined && st.id !== null)] in the
    second. *)
Definition validSubtasks (rev : revision) (sts : list Subtask) : list Subtask :=
  match rev with
  | RevFirst => sts
  | RevSecond => List.filter hasId sts
  end.

(** [`${a}.${b}`] *)
Definition dotted (a b : jsval) : string := toString a ++ "." ++ toString b.

(** The callback of [st.dependencies.map(...)]. *)
Definition rewriteDep (tid : jsval) (subtaskIds : list jsval) (dep : jsval) : jsval :=
  if (isString dep && includesChar "."%char (toString dep))%bool then dep
  else if ((isNumber dep || (isString dep && testDigits (toString dep)))
           && match toNumber dep with
              | Some n => includes (JNum n) subtaskIds
              | None => false
              end)%bool
       then JStr (dotted tid dep)
       else dep.

(** The object pushed for a subtask [st] of [t]. *)
Definition flattenSubtask (t : Task) (subtaskIds : list jsval) (st : Subtask) : FlatTask :=
  let subId := JStr (dotted (t_id t) (st_id st)) in
  let newDeps := option_map (List.map (rewriteDep (t_id t) subtaskIds)) (st_dependencies st) in
  let subtaskPriority :=
    if strictNe (st_priority st) JUndefined then st_priority st else t_priority t in
  {| f_id := subId;
     f_title := st_title st;
     f_description := st_description st;
     f_details := st_details st;
     f_testStrategy := st_testStrategy st;
     f_priority := subtaskPriority;
     f_status := st_status st;
     f_dependencies := newDeps;
     f_subtasks := None;
     f_parentId := t_id t;
     f_isSubtask := true |}.

(** The object pushed for the task [t] itself. *)
Definition flattenParent (t : Task) (flattenedSubtaskIds : list jsval) : FlatTask :=
  {| f_id := t_id t;
     f_title := t_title t;
     f_description := t_description t;
     f_details := t_details t;
     f_testStrategy := t_testStrategy t;
     f_priority := t_priority t;
     f_status := t_status t;
     f_dependencies := t_dependencies t;
     f_subtasks := Some flattenedSubtaskIds;
     f_parentId := JUndefined;
     f_isSubtask := false |}.

Section Flattener.
Variable rev : revision.

Definition flattenTasksWithTag (tasks : list Task) (tag : string) : list Entity :=
  fold_left
    (fun arr t =>
       let '(flattenedSubtaskIds, arr) :=
         match t_subtasks t with
         | Some subtasks =>
             let valid := validSubtasks rev subtasks in
             let subtaskIds := List.map st_id valid in
             (List.map (fun st => JStr (dotted (t_id t) (st_id st))) valid,
              fold_left
                (fun arr st =>
                   arr ++ [ {| e_id := JStr (dotted (t_id t) (st_id st));
                               e_task := flattenSubtask t subtaskIds st;
                               e_tag := tag |} ])
                valid arr)
         | None => ([], arr)
         end in
       arr ++ [ {| e_id := t_id t;
                   e_task := flattenParent t flattenedSubtaskIds;
                   e_tag := tag |} ])
    tasks [].

Definition flattenTasksMap (tasks : list Task) : JSMap FlatTask :=
  fold_left
    (fun map t =>
       let '(flattenedSubtaskIds, map) :=
         match t_subtasks t with
         | Some subtasks =>
             let valid := validSubtasks rev subtasks in
             let subtaskIds := List.map st_id valid in
             (List.map (fun st => JStr (dotted (t_id t) (st_id st))) valid,
              fold_left
                (fun map st =>
                   map_set (JStr (dotted (t_id t) (st_id st)))
                           (flattenSubtask t subtaskIds st) map)
                valid map)
         | None => ([], map)
         end in
       map_set (t_id t) (flattenParent t flattenedSubtaskIds) map)
    tasks [].

(** What one task contributes to [flattenTasksWithTag]. *)
Definition entitiesOf (tag : string) (t : Task) : list Entity :=
  let valid :=
    match t_subtasks t with
    | Some subtasks => validSubtasks rev subtasks
    | None => []
    end in
  List.map (fun st => {| e_id := JStr (dotted (t_id t) (st_id st));
                         e_task := flattenSubtask t (List.map st_id valid) st;
                         e_tag := tag |}) valid
  ++ [ {| e_id := t_id t;
          e_task := flattenParent t (List.map (fun st => JStr (dotted (t_id t) (st_id st))) valid);
          e_tag := tag |} ].

Lemma fold_push {A B : Type} (f : A -> B) (l : list A) (acc : list B) :
  fold_left (fun arr x => arr ++ [f x]) l acc = acc ++ List.map f l.
Proof.
  revert acc. induction l as [|x l IH]; intros acc; simpl.
  - now rewrite app_nil_r.
  - rewrite IH, <- app_assoc. reflexivity.
Qed.

Lemma flattenTasksWithTag_acc tasks tag acc :
  fold_left
    (fun arr t =>
       let '(flattenedSubtaskIds, arr) :=
         match t_subtasks t with
         | Some subtasks =>
             let valid := validSubtasks rev subtasks in
             let subtaskIds := List.map st_id valid in
             (List.map (fun st => JStr (dotted (t_id t) (st_id st))) valid,
              fold_left
                (fun arr st =>
                   arr ++ [ {| e_id := JStr (dotted (t_id t) (st_id st));
                               e_task := flattenSubtask t subtaskIds st;
                               e_tag := tag |} ])
                valid arr)
         | None => ([], arr)
         end in
       arr ++ [ {| e_id := t_id t;
                   e_task := flattenParent t flattenedSubtaskIds;
                   e_tag := tag |} ])
    tasks acc
  = acc ++ flat_map (entitiesOf tag) tasks.
Proof.
  revert acc. induction tasks as [|t tasks IH]; intros acc; simpl.
  - now rewrite app_nil_r.
  - rewrite IH. unfold entitiesOf at 2.
    destruct (t_subtasks t) as [sts|]; simpl.
    + rewrite fold_push. now rewrite <- !app_assoc.
    + now rewrite <- !app_assoc.
Qed.

Lemma flattenTasksWithTag_flat_map tasks tag :
  flattenTasksWithTag tasks tag = flat_map (entitiesOf tag) tasks.
Proof. unfold flattenTasksWithTag. now rewrite flattenTasksWithTag_acc. Qed.

Lemma flattenTasksMap_NoDup tasks : NoDup (map_keys (flattenTasksMap tasks)).
Proof.
  unfold flattenTasksMap.
  assert (Hinner : forall (t : Task) ids (l : list Subtask) (m : JSMap FlatTask),
             NoDup (map_keys m) ->
             NoDup (map_keys (fold_left
                (fun map st => map_set (JStr (dotted (t_id t) (st_id st)))
                                       (flattenSubtask t ids st) map) l m))).
  { intros t ids l. induction l as [|st l IH]; intros m Hm; simpl; auto.
    apply IH. now apply map_set_NoDup. }
  assert (Hgen : forall (m : JSMap FlatTask), NoDup (map_keys m) ->
    NoDup (map_keys (fold_left
    (fun map t =>
       let '(flattenedSubtaskIds, map) :=
         match t_subtasks t with
         | Some subtasks =>
             let valid := validSubtasks rev subtasks in
             let subtaskIds := List.map st_id valid in
             (List.map (fun st => JStr (dotted (t_id t) (st_id st))) valid,
              fold_left
                (fun map st =>
                   map_set (JStr (dotted (t_id t) (st_id st)))
                           (flattenSubtask t subtaskIds st) map)
                valid map)
         | None => ([], map)
         end in
       map_set (t_id t) (flattenParent t flattenedSubtaskIds) map)
    tasks m))).
  { induction tasks as [|t tasks IH]; intros m Hm; simpl; auto.
    apply IH. destruct (t_subtasks t) as [sts|]; simpl.
    - apply map_set_NoDup. now apply Hinner.
    - now apply map_set_NoDup. }
  apply Hgen. constructor.
Qed.
End Flattener.

(** A task without its id-less subtasks. *)
Definition withoutIdless (t : Task) : Task :=
  {| t_id := t_id t;
     t_title := t_title t;
     t_description := t_description t;
     t_details := t_details t;
     t_testStrategy := t_testStrategy t;
     t_priority := t_priority t;
     t_status := t_status t;
     t_dependencies := t_dependencies t;
     t_subtasks := option_map (List.filter hasId) (t_subtasks t) |}.

(** The number of flattened records a task list yields in the second
    revision: one per task and one per subtask that has an id. *)
Definition countAddressable (tasks : list Task) : nat :=
  list_sum (List.map (fun t =>
    S (List.length (List.filter hasId (match t_subtasks t with Some sts => sts | None => [] end))))
    tasks).



Lemma filter_hasId_idem sts : List.filter hasId (List.filter hasId sts) = List.filter hasId sts.
Proof.
  induction sts as [|st sts IH]; simpl; auto.
  destruct (hasId st) eqn:E; simpl; rewrite ?E, IH; auto.
Qed.

Lemma entitiesOf_withoutIdless tag t :
  entitiesOf RevSecond tag (withoutIdless t) = entitiesOf RevSecond tag t.
Proof.
  unfold entitiesOf, withoutIdless, flattenSubtask, flattenParent; simpl.
  destruct (t_subtasks t) as [sts|]; simpl; auto.
  now rewrite filter_hasId_idem.
Qed.

Lemma flattenTasksMap_withoutIdless_acc tasks (m : JSMap FlatTask) :
  fold_left
    (fun map t =>
       let '(flattenedSubtaskIds, map) :=
         match t_subtasks t with
         | Some subtasks =>
             let valid := validSubtasks RevSecond subtasks in
             let subtaskIds := List.map st_id valid in
             (List.map (fun st => JStr (dotted (t_id t) (st_id st))) valid,
              fold_left
                (fun map st =>
                   map_set (JStr (dotted (t_id t) (st_id st)))
                           (flattenSubtask t subtaskIds st) map)
                valid map)
         | None => ([], map)
         end in
       map_set (t_id t) (flattenParent t flattenedSubtaskIds) map)
    (List.map withoutIdless tasks) m
  = fold_left
    (fun map t =>
       let '(flattenedSubtaskIds, map) :=
         match t_subtasks t with
         | Some subtasks =>
             let valid := validSubtasks RevSecond subtasks in
             let subtaskIds := List.map st_id valid in
             (List.map (fun st => JStr (dotted (t_id t) (st_id st))) valid,
              fold_left
                (fun map st =>
                   map_set (JStr (dotted (t_id t) (st_id st)))
                           (flattenSubtask t subtaskIds st) map)
                valid map)
         | None => ([], map)
         end in
       map_set (t_id t) (flattenParent t flattenedSubtaskIds) map)
    tasks m.
Proof.
  revert m. induction tasks as [|t tasks IH]; intros m; simpl; auto.
  rewrite IH. f_equal.
  destruct (t_subtasks t) as [sts|]; simpl; auto.
  now rewrite filter_hasId_idem.
Qed.

(** A task 5 whose one subtask has no [id] field. *)
Definition idlessSubtask : Subtask :=
  mkSubtask JUndefined (JStr "S") JUndefined JUndefined JUndefined JUndefined
            (JStr "pending") None.

Definition idlessParent : Task :=
  mkTask (JNum 5) (JStr "P") JUndefined JUndefined JUndefined JUndefined
         (JStr "pending") None (Some [idlessSubtask]).

(** C8 (id-less subtasks are skipped), at an input where the first
    [flattenTasksWithTag] of [notion.js] fails it: for task 5 with one
    subtask that has no id, it pushes a record with id ["5.undefined"] for
    the subtask and lists ["5.undefined"] among the subtasks of the task's
    record.  The second [flattenTasksWithTag] filters such subtasks out
    first: on the same input it pushes the record of the task only, with
    no subtask listed. *)
Theorem first_revision_keeps_idless :
  flattenTasksWithTag RevFirst [idlessParent] "master"
  = [ {| e_id := JStr "5.undefined";
         e_task :=
           {| f_id := JStr "5.undefined";
              f_title := JStr "S";
              f_description := JUndefined;
              f_details := JUndefined;
              f_testStrategy := JUndefined;
              f_priority := JUndefined;
              f_status := JStr "pending";
              f_dependencies := None;
              f_subtasks := None;
              f_parentId := JNum 5;
              f_isSubtask := true |};
         e_tag := "master" |};
      {| e_id := JNum 5;
         e_task :=
           {| f_id := JNum 5;
              f_title := JStr "P";
              f_description := JUndefined;
              f_details := JUndefined;
              f_testStrategy := JUndefined;
              f_priority := JUndefined;
              f_status := JStr "pending";
              f_dependencies := None;
              f_subtasks := Some [JStr "5.undefined"];
              f_parentId := JUndefined;
              f_isSubtask := false |};
         e_tag := "master" |} ]
  /\ flattenTasksWithTag RevSecond [idlessParent] "master"
     = [ {| e_id := JNum 5;
            e_task :=
              {| f_id := JNum 5;
                 f_title := JStr "P";
                 f_description := JUndefined;
                 f_details := JUndefined;
                 f_testStrategy := JUndefined;
                 f_priority := JUndefined;
                 f_status := JStr "pending";
                 f_dependencies := None;
                 f_subtasks := Some [];
                 f_parentId := JUndefined;
                 f_isSubtask := false |};
            e_tag := "master" |} ].
Proof. split; reflexivity. Qed.



(** X29.  Id-less subtasks in the second revision.  The second
    [flattenTasksWithTag] and [flattenTasksMap] of [notion.js] skip them: the
    flattened array holds, for every task in order, one record per subtask
    whose id is neither undefined nor null, built with the ids of those
    subtasks only as sibling ids, and then the record of the task with
    references to those subtasks only.  Hence the flattening, as an array
    and as a map, is that of the task list with the id-less subtasks taken
    out, and the array has one record per task and one per subtask that has
    an id. *)
Theorem idless_subtasks_skipped (tasks : list Task) (tag : string) :
  flattenTasksWithTag RevSecond tasks tag
    = flat_map
        (fun t =>
           let addressable :=
             List.filter hasId (match t_subtasks t with Some sts => sts | None => [] end) in
           List.map (fun st => {| e_id := JStr (dotted (t_id t) (st_id st));
                                  e_task := flattenSubtask t (List.map st_id addressable) st;
                                  e_tag := tag |}) addressable
           ++ [ {| e_id := t_id t;
                   e_task := flattenParent t
                     (List.map (fun st => JStr (dotted (t_id t) (st_id st))) addressable);
                   e_tag := tag |} ])
        tasks
  /\ flattenTasksWithTag RevSecond tasks tag
    = flattenTasksWithTag RevSecond (List.map withoutIdless tasks) tag
  /\ flattenTasksMap RevSecond tasks
    = flattenTasksMap RevSecond (List.map withoutIdless tasks)
  /\ List.length (flattenTasksWithTag RevSecond tasks tag) = countAddressable tasks.
Proof.
  split; [|split; [|split]].
  - rewrite flattenTasksWithTag_flat_map. apply flat_map_ext. intros t.
    unfold entitiesOf. now destruct (t_subtasks t).
  - rewrite !flattenTasksWithTag_flat_map.
    induction tasks as [|t tasks IH]; simpl; auto.
    now rewrite IH, entitiesOf_withoutIdless.
  - unfold flattenTasksMap. now rewrite flattenTasksMap_withoutIdless_acc.
  - rewrite flattenTasksWithTag_flat_map. unfold countAddressable.
    induction tasks as [|t tasks IH]; simpl; auto.
    rewrite length_app, IH. f_equal.
    unfold entitiesOf. rewrite length_app, length_map. simpl.
    destruct (t_subtasks t); simpl; lia.
Qed.

(** *** Further facts on the flattener *)

Lemma includesChar_app c s1 s2 :
  includesChar c (s1 ++ String c s2) = true.
Proof.
  induction s1 as [|d s1 IH]; simpl.
  - now rewrite Ascii.eqb_refl.
  - rewrite IH. apply orb_true_r.
Qed.

Lemma dotted_has_dot a b : includesChar "."%char (dotted a b) = true.
Proof. exact (includesChar_app "."%char (toString a) (toString b)). Qed.

(** X20.  Rewriting is stable.  Applying the dependency rewriting of a task to
    its own result changes nothing: a dependency already put in compound
    form is never prefixed again. *)
Theorem rewriteDep_idempotent (tid : jsval) (subtaskIds : list jsval) (dep : jsval) :
  rewriteDep tid subtaskIds (rewriteDep tid subtaskIds dep)
  = rewriteDep tid subtaskIds dep.
Proof.
  unfold rewriteDep at 2.
  destruct (isString dep && includesChar "."%char (toString dep))%bool eqn:E1.
  - unfold rewriteDep. now rewrite E1.
  - destruct ((isNumber dep || isString dep && testDigits (toString dep))
              && match toNumber dep with
                 | Some n => includes (JNum n) subtaskIds
                 | None => false
                 end)%bool eqn:E2.
    + unfold rewriteDep. cbn [isString toString].
      now rewrite dotted_has_dot, E1, E2.
    + unfold rewriteDep. now rewrite E1, E2.
Qed.

Lemma map_get_set {V : Type} (k k' : jsval) (v : V) (m : JSMap V) :
  map_get k (map_set k' v m) = if jsval_eqb k k' then Some v else map_get k m.
Proof.
  induction m as [|[k0 v0] m IH]; simpl; auto.
  destruct (jsval_eqb k' k0) eqn:E; simpl.
  - apply jsval_eqb_eq in E. subst k0. now destruct (jsval_eqb k k').
  - destruct (jsval_eqb k k0) eqn:E0.
    + apply jsval_eqb_eq in E0. subst k0.
      destruct (jsval_eqb k k') eqn:E1; auto.
      apply jsval_eqb_eq in E1. subst k'. now rewrite jsval_eqb_refl in E.
    + exact IH.
Qed.

(** The map built by setting every record of an array under its id. *)
Definition mapOfEntities (entities : list Entity) (m : JSMap FlatTask) : JSMap FlatTask :=
  fold_left (fun m e => map_set (e_id e) (e_task e) m) entities m.

Lemma mapOfEntities_app l1 l2 m :
  mapOfEntities (l1 ++ l2) m = mapOfEntities l2 (mapOfEntities l1 m).
Proof. unfold mapOfEntities. apply fold_left_app. Qed.

Lemma flattenTasksMap_entities rev tag tasks : forall m,
  fold_left
    (fun map t =>
       let '(flattenedSubtaskIds, map) :=
         match t_subtasks t with
         | Some subtasks =>
             let valid := validSubtasks rev subtasks in
             let subtaskIds := List.map st_id valid in
             (List.map (fun st => JStr (dotted (t_id t) (st_id st))) valid,
              fold_left
                (fun map st =>
                   map_set (JStr (dotted (t_id t) (st_id st)))
                           (flattenSubtask t subtaskIds st) map)
                valid map)
         | None => ([], map)
         end in
       map_set (t_id t) (flattenParent t flattenedSubtaskIds) map)
    tasks m
  = mapOfEntities (flat_map (entitiesOf rev tag) tasks) m.
Proof.
  induction tasks as [|t tasks IH]; intros m; [reflexivity|].
  cbn [fold_left flat_map]. rewrite IH, mapOfEntities_app. f_equal.
  unfold entitiesOf. rewrite mapOfEntities_app.
  destruct (t_subtasks t) as [sts|]; cbn; [|reflexivity].
  f_equal. unfold mapOfEntities.
  generalize (List.map st_id (validSubtasks rev sts)) as ids.
  intros ids. revert m.
  induction (validSubtasks rev sts) as [|st l IHl]; intros m; cbn; auto.
Qed.

Lemma mapOfEntities_get id entities : forall m,
  map_get id (mapOfEntities entities m)
  = match find (fun e => jsval_eqb id (e_id e)) (rev entities) with
    | Some e => Some (e_task e)
    | None => map_get id m
    end.
Proof.
  induction entities as [|e l IH] using rev_ind; intros m; [reflexivity|].
  rewrite mapOfEntities_app, rev_app_distr. cbn.
  rewrite map_get_set. destruct (jsval_eqb id (e_id e)); auto.
Qed.

(** X21.  The two flatteners agree.  The map of a task list holds exactly the
    ids of its flattened array; under an id that several records share it
    holds the last of them. *)
Theorem flattenTasksMap_agrees (rev : revision) (tasks : list Task) (tag : string)
    (id : jsval) :
  map_get id (flattenTasksMap rev tasks)
  = option_map e_task
      (find (fun e => jsval_eqb id (e_id e))
            (List.rev (flattenTasksWithTag rev tasks tag))).
Proof.
  unfold flattenTasksMap.
  rewrite (flattenTasksMap_entities rev tag), flattenTasksWithTag_flat_map.
  rewrite mapOfEntities_get.
  now destruct (find _ _).
Qed.

End Flatten.

(** ** Diff engine ([diffTasks], [isTaskEqual]) *)

Module Diff.
Import JS Flatten.

Inductive ChangeType : Type := added | deleted | updated | moved.

Definition ChangeType_eqb (a b : ChangeType) : bool :=
  match a, b with
  | added, added | deleted, deleted | updated, updated | moved, moved => true
  | _, _ => false
  end.

(** A change record.  [c_cur_id] and [c_prev_tag] are set on [moved]
    records only; [c_matched] is the [_matched] mark the move detection puts
    on the records it pairs. *)
Record Change : Type := mkChange {
  c_id : jsval;
  c_cur_id : jsval;
  c_type : ChangeType;
  c_prev : option FlatTask;
  c_cur : option FlatTask;
  c_prev_tag : option string;
  c_tag : string;
  c_matched : bool
}.

(** A snapshot: the own keys of the object in [Object.keys] order, each with
    the [tasks] array of its value, or [None] when the value is falsy or its
    [tasks] is not an array. *)
Definition Snapshot : Type := list (string * option (list Task)).

Fixpoint getTag (o : Snapshot) (tag : string) : option (option (list Task)) :=
  match o with
  | [] => None
  | (k, v) :: r => if String.eqb tag k then Some v else getTag r tag
  end.

(** [Object.keys(o).filter(tag => o[tag] && Array.isArray(o[tag].tasks))] *)
Definition tagsWithTasks (o : Snapshot) : list string :=
  List.filter (fun tag => match getTag o tag with Some (Some _) => true | _ => false end)
              (List.map fst o).

(** [o[tag]?.tasks || []]; the value is read only for a tag that passed the
    filter above. *)
Definition tasksOf (o : Snapshot) (tag : string) : list Task :=
  match getTag o tag with
  | Some (Some tasks) => tasks
  | _ => []
  end.

(** [tags.includes(tag)] *)
Definition hasTag (tag : string) (tags : list string) : bool :=
  existsb (String.eqb tag) tags.

(** [Array.from(new Set(l))] *)
Definition unique (l : list string) : list string :=
  fold_left (fun seen x => if hasTag x seen then seen else seen ++ [x]) l [].

Definition arrayOrEmpty (o : option (list jsval)) : list jsval :=
  match o with Some l => l | None => [] end.

(** The index loop [for (i < a.length) if (a[i] !== b[i]) return false],
    run after the lengths were found equal. *)
Fixpoint elementsEqual (a b : list jsval) : bool :=
  match a, b with
  | x :: a', y :: b' => if strictNe x y then false else elementsEqual a' b'
  | x :: a', [] => if strictNe x JUndefined then false else elementsEqual a' []
  | [], _ => true
  end.

(** The arguments are [None] for [undefined]: [if (!a || !b) return false]. *)
Definition isTaskEqual (a b : option FlatTask) : bool :=
  match a, b with
  | Some a, Some b =>
      let keys := [f_title; f_description; f_details; f_testStrategy; f_priority; f_status] in
      if existsb (fun k => strictNe (k a) (k b)) keys then false
      else
        let arrA := arrayOrEmpty (f_dependencies a) in
        let arrB := arrayOrEmpty (f_dependencies b) in
        if negb (Nat.eqb (List.length arrA) (List.length arrB)) then false
        else if negb (elementsEqual arrA arrB) then false
        else
          let subA := arrayOrEmpty (f_subtasks a) in
          let subB := arrayOrEmpty (f_subtasks b) in
          if negb (Nat.eqb (List.length subA) (List.length subB)) then false
          else if negb (elementsEqual subA subB) then false
          else true
  | _, _ => false
  end.

Definition mkDeleted (id : jsval) (prev : FlatTask) (tag : string) : Change :=
  mkChange id JUndefined deleted (Some prev) None None tag false.
Definition mkAdded (id : jsval) (cur : FlatTask) (tag : string) : Change :=
  mkChange id JUndefined added None (Some cur) None tag false.
Definition mkUpdated (id : jsval) (prev : FlatTask) (cur : option FlatTask)
           (tag : string) : Change :=
  mkChange id JUndefined updated (Some prev) cur None tag false.
Definition mkMoved (del add : Change) : Change :=
  mkChange (c_id del) (c_id add) moved (c_prev del) (c_cur add)
           (Some (c_tag del)) (c_tag add) false.

(** [c._matched = true] *)
Definition setMatched (c : Change) : Change :=
  mkChange (c_id c) (c_cur_id c) (c_type c) (c_prev c) (c_cur c)
           (c_prev_tag c) (c_tag c) true.

(** [o?.[f]] *)
Definition fieldOf (f : FlatTask -> jsval) (o : option FlatTask) : jsval :=
  match o with Some t => f t | None => JUndefined end.

(** The inner [for (const f of fields)] loop of the move detection. *)
Definition sameContent (del add : Change) : bool :=
  let fields := [f_title; f_description; f_details; f_testStrategy; f_status] in
  forallb (fun f => strictEq (jsOr (fieldOf f (c_prev del)) (JStr ""))
                             (jsOr (fieldOf f (c_cur add)) (JStr "")))
          fields.

(** [for (const add of added)] for one [del]: the first [add] with the same
    content is marked and paired, and the loop breaks.  The marks already on
    [added] are not read. *)
Fixpoint scanAdded (del : Change) (added : list Change) : option (Change * list Change) :=
  match added with
  | [] => None
  | add :: rest =>
      if sameContent del add then Some (mkMoved del add, setMatched add :: rest)
      else match scanAdded del rest with
           | Some (m, rest') => Some (m, add :: rest')
           | None => None
           end
  end.

(** [for (const del of deleted)]: the state is the deleted records seen so
    far, the [added] array and the [moved] array. *)
Definition detectMoves (deletedL addedL : list Change)
  : list Change * list Change * list Change :=
  fold_left
    (fun '(seen, addedL, movedL) del =>
       match scanAdded del addedL with
       | Some (m, addedL') => (seen ++ [setMatched del], addedL', movedL ++ [m])
       | None => (seen ++ [del], addedL, movedL)
       end)
    deletedL ([], addedL, []).

Section DiffTasks.
Variable rev : revision.

(** The body of [for (const tag of allTags)]. *)
Definition diffTag (prevObj curObj : Snapshot) (prevTags curTags : list string)
           (changes : list Change) (tag : string) : list Change :=
  let prevTagTasks := tasksOf prevObj tag in
  let curTagTasks := tasksOf curObj tag in
  if (hasTag tag prevTags && negb (hasTag tag curTags))%bool then
    fold_left (fun changes change =>
                 changes ++ [mkDeleted (e_id change) (e_task change) tag])
              (flattenTasksWithTag rev prevTagTasks tag) changes
  else if (negb (hasTag tag prevTags) && hasTag tag curTags)%bool then
    fold_left (fun changes change =>
                 changes ++ [mkAdded (e_id change) (e_task change) tag])
              (flattenTasksWithTag rev curTagTasks tag) changes
  else
    let prevMap := flattenTasksMap rev prevTagTasks in
    let curMap := flattenTasksMap rev curTagTasks in
    let changes :=
      fold_left
        (fun changes '(id, prevTask) =>
           if negb (map_has id curMap) then changes ++ [mkDeleted id prevTask tag]
           else
             let curTask := map_get id curMap in
             if negb (isTaskEqual (Some prevTask) curTask)
             then changes ++ [mkUpdated id prevTask curTask tag]
             else changes)
        prevMap changes in
    fold_left
      (fun changes '(id, curTask) =>
         if negb (map_has id prevMap) then changes ++ [mkAdded id curTask tag]
         else changes)
      curMap changes.

(** [previous] and [current] are [None] when the argument is not an
    object; the source then takes the empty object. *)
Definition diffTasks (previous current : option Snapshot) : list Change :=
  let prevObj := match previous with Some o => o | None => [] end in
  let curObj := match current with Some o => o | None => [] end in
  let prevTags := tagsWithTasks prevObj in
  let curTags := tagsWithTasks curObj in
  let allTags := unique (prevTags ++ curTags) in
  let changes := fold_left (diffTag prevObj curObj prevTags curTags) allTags [] in
  let addedL := List.filter (fun c => ChangeType_eqb (c_type c) added) changes in
  let deletedL := List.filter (fun c => ChangeType_eqb (c_type c) deleted) changes in
  let '(deletedL, addedL, movedL) := detectMoves deletedL addedL in
  List.filter (fun c => (negb (ChangeType_eqb (c_type c) added)
                         && negb (ChangeType_eqb (c_type c) deleted))%bool) changes
  ++ List.filter (fun a => negb (c_matched a)) addedL
  ++ List.filter (fun d => negb (c_matched d)) deletedL
  ++ movedL.
End DiffTasks.

(** A task with the given id, title and status and nothing else. *)
Definition simpleTask (id : Z) (title status : string) : Task :=
  mkTask (JNum id) (JStr title) JUndefined JUndefined JUndefined JUndefined
         (JStr status) None None.

Definition simpleFlat (id : Z) (title status : string) : FlatTask :=
  flattenParent (simpleTask id title status) [].

Lemma elementsEqual_refl l : elementsEqual l l = true.
Proof.
  induction l as [|x l IH]; simpl; auto.
  unfold strictNe. now rewrite jsval_eqb_refl.
Qed.

Lemma isTaskEqual_refl a : isTaskEqual (Some a) (Some a) = true.
Proof.
  unfold isTaskEqual. simpl. unfold strictNe.
  rewrite !jsval_eqb_refl. simpl.
  now rewrite !Nat.eqb_refl, !elementsEqual_refl.
Qed.

Lemma fold_left_fixed {A B : Type} (f : A -> B -> A) (l : list B) (acc : A) :
  (forall x, In x l -> f acc x = acc) -> fold_left f l acc = acc.
Proof.
  induction l as [|x l IH]; simpl; auto.
  intros H. rewrite (H x) by auto. apply IH. auto.
Qed.

(** Diffing a tag against itself pushes nothing. *)
Lemma diffTag_same rev (o : Snapshot) (tags : list string) changes tag :
  diffTag rev o o tags tags changes tag = changes.
Proof.
  unfold diffTag.
  destruct (hasTag tag tags); cbn [andb negb].
  - pose proof (flattenTasksMap_NoDup rev (tasksOf o tag)) as Hnd.
    set (m := flattenTasksMap rev (tasksOf o tag)) in *.
    assert (Hget : forall id v, In (id, v) m -> map_get id m = Some v).
    { intros id v Hin. now apply map_get_entry. }
    rewrite (fold_left_fixed _ m changes).
    + apply fold_left_fixed. intros [id v] Hin.
      unfold map_has. now rewrite (Hget id v Hin).
    + intros [id v] Hin. unfold map_has. rewrite (Hget id v Hin). cbv zeta.
      now rewrite isTaskEqual_refl.
  - pose proof (flattenTasksMap_NoDup rev (tasksOf o tag)) as Hnd.
    set (m := flattenTasksMap rev (tasksOf o tag)) in *.
    assert (Hget : forall id v, In (id, v) m -> map_get id m = Some v).
    { intros id v Hin. now apply map_get_entry. }
    rewrite (fold_left_fixed _ m changes).
    + apply fold_left_fixed. intros [id v] Hin.
      unfold map_has. now rewrite (Hget id v Hin).
    + intros [id v] Hin. unfold map_has. rewrite (Hget id v Hin). cbv zeta.
      now rewrite isTaskEqual_refl.
Qed.

(** C1 (idempotence of the diff).  For every snapshot [S], in either
    revision, [diffTasks(S, S)] is the empty list: no added, deleted, updated
    or moved record. *)
Theorem diffTasks_same_snapshot (rev : revision) (S : Snapshot) :
  diffTasks rev (Some S) (Some S) = [].
Proof.
  unfold diffTasks.
  rewrite (fold_left_fixed _ _ []).
  - reflexivity.
  - intros tag _. apply diffTag_same.
Qed.

(** C3 (move detection).  With task 1 "A"/"pending" alone under tag "x"
    before and the same task alone under tag "y" after, the diff is one
    record, of type [moved], from tag "x" to tag "y". *)
Theorem diffTasks_tag_move (rev : revision) :
  diffTasks rev (Some [("x", Some [simpleTask 1 "A" "pending"])])
                (Some [("y", Some [simpleTask 1 "A" "pending"])])
  = [ {| c_id := JNum 1;
         c_cur_id := JNum 1;
         c_type := moved;
         c_prev := Some (simpleFlat 1 "A" "pending");
         c_cur := Some (simpleFlat 1 "A" "pending");
         c_prev_tag := Some "x";
         c_tag := "y";
         c_matched := false |} ].
Proof. destruct rev; reflexivity. Qed.

(** C2 (each entity paired at most once), at an input where it fails.  Two
    deleted tasks with the same content as one added task are both paired
    with it: the added task 3 is the new side of two [moved] records. *)
Theorem diffTasks_pairs_added_twice (rev : revision) :
  diffTasks rev
    (Some [("x", Some [simpleTask 1 "A" "pending"; simpleTask 2 "A" "pending"])])
    (Some [("y", Some [simpleTask 3 "A" "pending"])])
  = [ {| c_id := JNum 1;
         c_cur_id := JNum 3;
         c_type := moved;
         c_prev := Some (simpleFlat 1 "A" "pending");
         c_cur := Some (simpleFlat 3 "A" "pending");
         c_prev_tag := Some "x";
         c_tag := "y";
         c_matched := false |};
      {| c_id := JNum 2;
         c_cur_id := JNum 3;
         c_type := moved;
         c_prev := Some (simpleFlat 2 "A" "pending");
         c_cur := Some (simpleFlat 3 "A" "pending");
         c_prev_tag := Some "x";
         c_tag := "y";
         c_matched := false |} ].
Proof. destruct rev; reflexivity. Qed.

(** *** Further facts on the diff engine *)

Lemma elementsEqual_eq a : forall b,
  List.length a = List.length b -> (elementsEqual a b = true <-> a = b).
Proof.
  induction a as [|x a IH]; intros [|y b] Hlen; simpl in *; try discriminate.
  - tauto.
  - unfold strictNe. destruct (jsval_eqb x y) eqn:E; simpl.
    + apply jsval_eqb_eq in E. subst y. rewrite IH by lia.
      split; [intros ->; reflexivity|congruence].
    + apply jsval_eqb_neq in E. split; [discriminate|congruence].
Qed.

Lemma arraysEqual_eq a b :
  (if negb (Nat.eqb (List.length a) (List.length b)) then false
   else if negb (elementsEqual a b) then false else true) = true
  <-> a = b.
Proof.
  destruct (Nat.eqb (List.length a) (List.length b)) eqn:E; simpl.
  - apply Nat.eqb_eq in E. rewrite <- (elementsEqual_eq a b E).
    destruct (elementsEqual a b); simpl; split; congruence.
  - apply Nat.eqb_neq in E. split; [discriminate|]. intros ->. now destruct E.
Qed.

(** X16.  What [isTaskEqual] compares.  Two flattened records are equal exactly
    when title, description, details, testStrategy, priority and status are
    strictly equal and the dependency lists and the subtask reference lists
    are equal element by element, a field that is not an array counting as
    the empty list.  The id, the parent id and the subtask mark play no
    part. *)
Theorem isTaskEqual_iff (a b : FlatTask) :
  isTaskEqual (Some a) (Some b) = true
  <-> f_title a = f_title b
      /\ f_description a = f_description b
      /\ f_details a = f_details b
      /\ f_testStrategy a = f_testStrategy b
      /\ f_priority a = f_priority b
      /\ f_status a = f_status b
      /\ arrayOrEmpty (f_dependencies a) = arrayOrEmpty (f_dependencies b)
      /\ arrayOrEmpty (f_subtasks a) = arrayOrEmpty (f_subtasks b).
Proof.
  unfold isTaskEqual. cbn [existsb]. unfold strictNe.
  rewrite <- (arraysEqual_eq (arrayOrEmpty (f_dependencies a))),
          <- (arraysEqual_eq (arrayOrEmpty (f_subtasks a))).
  rewrite <- !jsval_eqb_eq.
  destruct (jsval_eqb (f_title a) (f_title b)),
           (jsval_eqb (f_description a) (f_description b)),
           (jsval_eqb (f_details a) (f_details b)),
           (jsval_eqb (f_testStrategy a) (f_testStrategy b)),
           (jsval_eqb (f_priority a) (f_priority b)),
           (jsval_eqb (f_status a) (f_status b)); cbn [negb orb];
    try (split; [discriminate|intros (?&?&?&?&?&?&?&?); discriminate]).
  destruct (negb (Nat.eqb (List.length (arrayOrEmpty (f_dependencies a)))
                          (List.length (arrayOrEmpty (f_dependencies b))))).
  { split; [discriminate|intros (?&?&?&?&?&?&?&?); discriminate]. }
  destruct (negb (elementsEqual (arrayOrEmpty (f_dependencies a))
                                (arrayOrEmpty (f_dependencies b)))).
  { split; [discriminate|intros (?&?&?&?&?&?&?&?); discriminate]. }
  tauto.
Qed.

Lemma hasTag_In tag tags : hasTag tag tags = true <-> In tag tags.
Proof.
  unfold hasTag. rewrite existsb_exists. split.
  - intros (x & Hin & Heq). apply String.eqb_eq in Heq. now subst.
  - intros Hin. exists tag. split; auto. apply String.eqb_refl.
Qed.

Lemma unique_acc_In l : forall seen x,
  In x (fold_left (fun seen x => if hasTag x seen then seen else seen ++ [x]) l seen) ->
  In x seen \/ In x l.
Proof.
  induction l as [|y l IH]; intros seen x Hin; simpl in *; auto.
  apply IH in Hin. destruct Hin as [Hin|Hin]; auto.
  destruct (hasTag y seen); auto.
  apply in_app_or in Hin. destruct Hin as [Hin|[<-|[]]]; auto.
Qed.

Lemma unique_In l x : In x (unique l) -> In x l.
Proof. intros H. apply unique_acc_In in H. destruct H as [[]|H]; auto. Qed.

(** The records pushed for a tag that only one side has. *)
Definition deletedOf (rev : revision) (o : Snapshot) (tag : string) : list Change :=
  List.map (fun e => mkDeleted (e_id e) (e_task e) tag)
           (flattenTasksWithTag rev (tasksOf o tag) tag).
Definition addedOf (rev : revision) (o : Snapshot) (tag : string) : list Change :=
  List.map (fun e => mkAdded (e_id e) (e_task e) tag)
           (flattenTasksWithTag rev (tasksOf o tag) tag).

Lemma diffTag_fold_deleted rev prevObj curObj prevTags tags : forall changes,
  (forall tag, In tag tags -> In tag prevTags) ->
  fold_left (diffTag rev prevObj curObj prevTags []) tags changes
  = changes ++ flat_map (deletedOf rev prevObj) tags.
Proof.
  induction tags as [|tag tags IH]; intros changes Hin; simpl.
  - now rewrite app_nil_r.
  - rewrite IH by (intros; apply Hin; now right).
    rewrite app_assoc. f_equal.
    unfold diffTag. cbn [hasTag existsb negb].
    rewrite (proj2 (hasTag_In tag prevTags)) by (apply Hin; now left).
    cbn [andb]. apply fold_push.
Qed.

Lemma diffTag_fold_added rev prevObj curObj curTags tags : forall changes,
  (forall tag, In tag tags -> In tag curTags) ->
  fold_left (diffTag rev prevObj curObj [] curTags) tags changes
  = changes ++ flat_map (addedOf rev curObj) tags.
Proof.
  induction tags as [|tag tags IH]; intros changes Hin; simpl.
  - now rewrite app_nil_r.
  - rewrite IH by (intros; apply Hin; now right).
    rewrite app_assoc. f_equal.
    unfold diffTag. cbn [hasTag existsb negb andb].
    rewrite (proj2 (hasTag_In tag curTags)) by (apply Hin; now left).
    apply fold_push.
Qed.

Lemma detectMoves_no_added deletedL :
  detectMoves deletedL [] = (deletedL, [], []).
Proof.
  unfold detectMoves.
  assert (H : forall seen, fold_left
    (fun '(seen, addedL, movedL) del =>
       match scanAdded del addedL with
       | Some (m, addedL') => (seen ++ [setMatched del], addedL', movedL ++ [m])
       | None => (seen ++ [del], addedL, movedL)
       end) deletedL (seen, [], []) = (seen ++ deletedL, [], [])).
  { induction deletedL as [|d l IH]; intros seen; simpl.
    - now rewrite app_nil_r.
    - rewrite IH, <- app_assoc. reflexivity. }
  apply (H []).
Qed.

Lemma filter_all {A} (f : A -> bool) l : Forall (fun x => f x = true) l -> List.filter f l = l.
Proof.
  induction 1 as [|x l Hx _ IH]; simpl; auto. now rewrite Hx, IH.
Qed.

Lemma filter_none {A} (f : A -> bool) l : Forall (fun x => f x = false) l -> List.filter f l = [].
Proof.
  induction 1 as [|x l Hx _ IH]; simpl; auto. now rewrite Hx.
Qed.

Lemma Forall_flat_map_intro {A B} (P : B -> Prop) (f : A -> list B) l :
  (forall x, Forall P (f x)) -> Forall P (flat_map f l).
Proof.
  intros H. induction l as [|x l IH]; simpl; [constructor|].
  apply Forall_app. auto.
Qed.

(** X17.  Diff against nothing.  When the current snapshot is absent or empty,
    the diff is one [deleted] record for every flattened entity of the
    previous snapshot, tag by tag in key order and in flattening order
    within a tag; when the previous snapshot is absent or empty it is one
    [added] record for every flattened entity of the current one.  No
    [moved] or [updated] record is produced. *)
Theorem diffTasks_against_nothing (rev : revision) (S : Snapshot) :
  diffTasks rev (Some S) None = flat_map (deletedOf rev S) (unique (tagsWithTasks S))
  /\ diffTasks rev (Some S) (Some []) = flat_map (deletedOf rev S) (unique (tagsWithTasks S))
  /\ diffTasks rev None (Some S) = flat_map (addedOf rev S) (unique (tagsWithTasks S))
  /\ diffTasks rev (Some []) (Some S) = flat_map (addedOf rev S) (unique (tagsWithTasks S)).
Proof.
  assert (Hdel : forall l : list Change,
             Forall (fun c => c_type c = deleted /\ c_matched c = false) l ->
             (let '(deletedL, addedL, movedL) :=
                detectMoves (List.filter (fun c => ChangeType_eqb (c_type c) deleted) l)
                            (List.filter (fun c => ChangeType_eqb (c_type c) added) l) in
              List.filter (fun c => (negb (ChangeType_eqb (c_type c) added)
                                     && negb (ChangeType_eqb (c_type c) deleted))%bool) l
              ++ List.filter (fun a => negb (c_matched a)) addedL
              ++ List.filter (fun d => negb (c_matched d)) deletedL
              ++ movedL) = l).
  { intros l Hl.
    rewrite (filter_none (fun c => ChangeType_eqb (c_type c) added) l)
      by (eapply Forall_impl; [|exact Hl]; intros c [-> _]; reflexivity).
    rewrite (filter_all (fun c => ChangeType_eqb (c_type c) deleted) l)
      by (eapply Forall_impl; [|exact Hl]; intros c [-> _]; reflexivity).
    rewrite detectMoves_no_added.
    rewrite filter_none
      by (eapply Forall_impl; [|exact Hl]; intros c [-> _]; reflexivity).
    rewrite (filter_all (fun d => negb (c_matched d)) l)
      by (eapply Forall_impl; [|exact Hl]; intros c [_ ->]; reflexivity).
    cbn. now rewrite app_nil_r. }
  assert (Hadd : forall l : list Change,
             Forall (fun c => c_type c = added /\ c_matched c = false) l ->
             (let '(deletedL, addedL, movedL) :=
                detectMoves (List.filter (fun c => ChangeType_eqb (c_type c) deleted) l)
                            (List.filter (fun c => ChangeType_eqb (c_type c) added) l) in
              List.filter (fun c => (negb (ChangeType_eqb (c_type c) added)
                                     && negb (ChangeType_eqb (c_type c) deleted))%bool) l
              ++ List.filter (fun a => negb (c_matched a)) addedL
              ++ List.filter (fun d => negb (c_matched d)) deletedL
              ++ movedL) = l).
  { intros l Hl.
    rewrite (filter_all (fun c => ChangeType_eqb (c_type c) added) l)
      by (eapply Forall_impl; [|exact Hl]; intros c [-> _]; reflexivity).
    rewrite (filter_none (fun c => ChangeType_eqb (c_type c) deleted) l)
      by (eapply Forall_impl; [|exact Hl]; intros c [-> _]; reflexivity).
    unfold detectMoves. cbn [fold_left].
    rewrite filter_none
      by (eapply Forall_impl; [|exact Hl]; intros c [-> _]; reflexivity).
    rewrite (filter_all (fun d => negb (c_matched d)) l)
      by (eapply Forall_impl; [|exact Hl]; intros c [_ ->]; reflexivity).
    cbn. now rewrite app_nil_r. }
  assert (HdelAll : Forall (fun c => c_type c = deleted /\ c_matched c = false)
                           (flat_map (deletedOf rev S) (unique (tagsWithTasks S)))).
  { apply Forall_flat_map_intro. intros tag. unfold deletedOf.
    apply Forall_forall. intros c Hc. apply in_map_iff in Hc.
    destruct Hc as (e & <- & _). split; reflexivity. }
  assert (HaddAll : Forall (fun c => c_type c = added /\ c_matched c = false)
                           (flat_map (addedOf rev S) (unique (tagsWithTasks S)))).
  { apply Forall_flat_map_intro. intros tag. unfold addedOf.
    apply Forall_forall. intros c Hc. apply in_map_iff in Hc.
    destruct Hc as (e & <- & _). split; reflexivity. }
  repeat split; unfold diffTasks;
    change (tagsWithTasks []) with (@nil string); rewrite ?app_nil_r; cbn [app].
  - rewrite diffTag_fold_deleted by apply unique_In. cbn [app]. now apply Hdel.
  - rewrite diffTag_fold_deleted by apply unique_In. cbn [app]. now apply Hdel.
  - rewrite diffTag_fold_added by apply unique_In. cbn [app]. now apply Hadd.
  - rewrite diffTag_fold_added by apply unique_In. cbn [app]. now apply Hadd.
Qed.

(** A record of [added] and the same record after some pairing. *)
Definition markedOrNot (a a' : Change) : Prop := a' = a \/ a' = setMatched a.

Lemma sameContent_setMatched del add :
  sameContent del (setMatched add) = sameContent del add.
Proof. reflexivity. Qed.

Lemma mkMoved_setMatched del add : mkMoved del (setMatched add) = mkMoved del add.
Proof. reflexivity. Qed.

Lemma scanAdded_find del : forall al cur,
  Forall2 markedOrNot al cur ->
  match find (sameContent del) al with
  | Some add =>
      exists cur', scanAdded del cur = Some (mkMoved del add, cur')
                   /\ Forall2 markedOrNot al cur'
  | None => scanAdded del cur = None
  end.
Proof.
  induction 1 as [|a a' al cur Ha Hrest IH]; cbn [find scanAdded]; [reflexivity|].
  assert (Hsame : sameContent del a' = sameContent del a).
  { destruct Ha as [->| ->]; [reflexivity|apply sameContent_setMatched]. }
  assert (Hmoved : mkMoved del a' = mkMoved del a).
  { destruct Ha as [->| ->]; [reflexivity|apply mkMoved_setMatched]. }
  rewrite Hsame. destruct (sameContent del a).
  - exists (setMatched a' :: cur). rewrite Hmoved. split; [reflexivity|].
    constructor; [|exact Hrest].
    right. destruct Ha as [->| ->]; reflexivity.
  - destruct (find (sameContent del) al) as [add|].
    + destruct IH as (cur' & Hscan & Hrel). rewrite Hscan.
      exists (a' :: cur'). split; [reflexivity|]. now constructor.
    + now rewrite IH.
Qed.

Lemma existsb_find {A} (f : A -> bool) l :
  existsb f l = match find f l with Some _ => true | None => false end.
Proof.
  induction l as [|x l IH]; simpl; auto. destruct (f x); auto.
Qed.

(** X18.  Move detection pairs every deleted record on its own.  The marks set
    on paired records are never read by the pairing: each deleted record,
    in order, is paired with the first added record that has the same
    title, description, details, testStrategy and status (a missing field
    counting as the empty string), whether or not that added record was
    paired before; it is marked exactly when such an added record exists,
    and the added records change by their marks only. *)
Theorem detectMoves_first_match (deletedL addedL : list Change) :
  let '(deletedL', addedL', movedL) := detectMoves deletedL addedL in
  movedL = flat_map (fun del => match find (sameContent del) addedL with
                                | Some add => [mkMoved del add]
                                | None => []
                                end) deletedL
  /\ deletedL' = List.map (fun del => if existsb (sameContent del) addedL
                                      then setMatched del else del) deletedL
  /\ Forall2 markedOrNot addedL addedL'.
Proof.
  unfold detectMoves.
  assert (H : forall seen cur movedL,
    Forall2 markedOrNot addedL cur ->
    let '(deletedL', addedL', movedL') :=
      fold_left
        (fun '(seen, addedL, movedL) del =>
           match scanAdded del addedL with
           | Some (m, addedL') => (seen ++ [setMatched del], addedL', movedL ++ [m])
           | None => (seen ++ [del], addedL, movedL)
           end) deletedL (seen, cur, movedL) in
    movedL' = movedL ++ flat_map (fun del => match find (sameContent del) addedL with
                                             | Some add => [mkMoved del add]
                                             | None => []
                                             end) deletedL
    /\ deletedL' = seen ++ List.map (fun del => if existsb (sameContent del) addedL
                                                then setMatched del else del) deletedL
    /\ Forall2 markedOrNot addedL addedL').
  { induction deletedL as [|del l IH]; intros seen cur movedL Hrel; cbn [fold_left].
    - cbn. now rewrite !app_nil_r.
    - pose proof (scanAdded_find del addedL cur Hrel) as Hscan.
      cbn [flat_map List.map]. rewrite existsb_find.
      destruct (find (sameContent del) addedL) as [add|].
      + destruct Hscan as (cur' & -> & Hrel').
        specialize (IH (seen ++ [setMatched del]) cur' (movedL ++ [mkMoved del add]) Hrel').
        destruct (fold_left _ l _) as [[dl' al'] mv'].
        destruct IH as (-> & -> & Hrel''). rewrite <- !app_assoc. auto.
      + rewrite Hscan.
        specialize (IH (seen ++ [del]) cur movedL Hrel).
        destruct (fold_left _ l _) as [[dl' al'] mv'].
        destruct IH as (-> & -> & Hrel''). rewrite <- !app_assoc. auto. }
  apply (H [] addedL []).
  clear. induction addedL; constructor; auto. now left.
Qed.

Lemma isTaskEqual_priority (a b : FlatTask) :
  f_priority a <> f_priority b -> isTaskEqual (Some a) (Some b) = false.
Proof.
  intros Hp. unfold isTaskEqual. cbn [existsb]. unfold strictNe.
  apply jsval_eqb_neq in Hp. rewrite Hp. cbn [negb orb].
  now rewrite !orb_true_r.
Qed.

(** [task] with another priority. *)
Definition withPriority (t : Task) (priority : jsval) : Task :=
  mkTask (t_id t) (t_title t) (t_description t) (t_details t) (t_testStrategy t)
         priority (t_status t) (t_dependencies t) (t_subtasks t).

(** A task whose [subtasks] is missing or empty. *)
Definition noSubtasks (t : Task) : bool :=
  match t_subtasks t with Some (_ :: _) => false | _ => true end.

Lemma map_set_fresh {V : Type} (k : jsval) (v : V) (m : JSMap V) :
  ~ In k (map_keys m) -> map_set k v m = m ++ [(k, v)].
Proof.
  induction m as [|[k' v'] m IH]; simpl; intros H; auto.
  destruct (jsval_eqb k k') eqn:E.
  - apply jsval_eqb_eq in E. subst. tauto.
  - rewrite IH; auto.
Qed.

Lemma flattenTasksMap_plain rev (tasks : list Task) :
  Forall (fun t => noSubtasks t = true) tasks ->
  NoDup (List.map t_id tasks) ->
  flattenTasksMap rev tasks
  = List.map (fun t => (t_id t, flattenParent t [])) tasks.
Proof.
  induction tasks as [|t tasks IH] using rev_ind; intros Hno Hnd; [reflexivity|].
  apply Forall_app in Hno. destruct Hno as [Hno Ht].
  rewrite List.map_app in Hnd. apply NoDup_app_remove_r in Hnd as Hnd'.
  unfold flattenTasksMap in *. rewrite fold_left_app, IH by assumption.
  cbn [fold_left]. rewrite List.map_app. cbn [List.map].
  inversion Ht as [|? ? Hnt _]; subst. unfold noSubtasks in Hnt.
  assert (Hfresh : ~ In (t_id t)
            (map_keys (List.map (fun t0 => (t_id t0, flattenParent t0 [])) tasks))).
  { unfold map_keys. rewrite List.map_map. cbn [fst].
    intros Hin. apply NoDup_remove_2 in Hnd. rewrite app_nil_r in Hnd. tauto. }
  destruct (t_subtasks t) as [[|st sts]|]; try discriminate.
  - replace (validSubtasks rev []) with (@nil Subtask) by now destruct rev.
    cbn. now apply map_set_fresh.
  - now apply map_set_fresh.
Qed.

(** X19.  Update detection.  In a tag whose tasks have distinct ids and no
    subtasks, changing the priority of one task and nothing else gives a
    diff of exactly one record: [updated], for that task, with the record
    before and the record after. *)
Theorem priority_change_is_one_update (rev : revision) (tag : string)
    (pre post : list Task) (t : Task) (priority : jsval) :
  Forall (fun t => noSubtasks t = true) (pre ++ t :: post) ->
  NoDup (List.map t_id (pre ++ t :: post)) ->
  t_priority t <> priority ->
  diffTasks rev (Some [(tag, Some (pre ++ t :: post))])
                (Some [(tag, Some (pre ++ withPriority t priority :: post))])
  = [mkUpdated (t_id t) (flattenParent t [])
               (Some (flattenParent (withPriority t priority) [])) tag].
Proof.
  intros Hno Hnd Hp.
  set (t' := withPriority t priority).
  assert (Hno' : Forall (fun t => noSubtasks t = true) (pre ++ t' :: post)).
  { apply Forall_app in Hno. destruct Hno as [H1 H2]. inversion H2; subst.
    apply Forall_app. split; auto. }
  assert (Hids : List.map t_id (pre ++ t' :: post) = List.map t_id (pre ++ t :: post)).
  { now rewrite !List.map_app. }
  assert (Hnd' : NoDup (List.map t_id (pre ++ t' :: post))) by now rewrite Hids.
  set (flat := fun t0 : Task => (t_id t0, flattenParent t0 [])).
  assert (Hprev : flattenTasksMap rev (pre ++ t :: post) = List.map flat (pre ++ t :: post))
    by now apply flattenTasksMap_plain.
  assert (Hcur : flattenTasksMap rev (pre ++ t' :: post) = List.map flat (pre ++ t' :: post))
    by now apply flattenTasksMap_plain.
  assert (HkeysCur : NoDup (map_keys (List.map flat (pre ++ t' :: post)))).
  { unfold map_keys. rewrite List.map_map. exact Hnd'. }
  assert (HkeysPrev : NoDup (map_keys (List.map flat (pre ++ t :: post)))).
  { unfold map_keys. rewrite List.map_map. exact Hnd. }
  assert (HgetCur : forall x, In x (pre ++ t' :: post) ->
            map_get (t_id x) (List.map flat (pre ++ t' :: post))
            = Some (flattenParent x [])).
  { intros x Hx. apply map_get_entry; auto.
    apply (in_map flat) in Hx. exact Hx. }
  assert (HgetPrev : forall x, In x (pre ++ t :: post) ->
            map_has (t_id x) (List.map flat (pre ++ t :: post)) = true).
  { intros x Hx. unfold map_has. rewrite (map_get_entry (t_id x) (flattenParent x [])); auto.
    apply (in_map flat) in Hx. exact Hx. }
  unfold diffTasks, tagsWithTasks. cbn [List.map fst getTag List.filter app].
  rewrite String.eqb_refl. cbn [List.filter app].
  unfold unique. cbn [fold_left hasTag existsb app]. rewrite String.eqb_refl.
  cbn [orb fold_left].
  assert (Hchanges :
    diffTag rev [(tag, Some (pre ++ t :: post))] [(tag, Some (pre ++ t' :: post))]
            [tag] [tag] [] tag
    = [mkUpdated (t_id t) (flattenParent t []) (Some (flattenParent t' [])) tag]).
  { unfold diffTag, tasksOf. cbn [hasTag existsb getTag]. rewrite String.eqb_refl.
    cbn [orb andb negb]. rewrite Hprev, Hcur.
    set (step := fun (changes : list Change) '(id, prevTask) =>
           if negb (map_has id (List.map flat (pre ++ t' :: post)))
           then changes ++ [mkDeleted id prevTask tag]
           else
             let curTask := map_get id (List.map flat (pre ++ t' :: post)) in
             if negb (isTaskEqual (Some prevTask) curTask)
             then changes ++ [mkUpdated id prevTask curTask tag]
             else changes).
    assert (Hsame : forall x changes, In x pre \/ In x post -> step changes (flat x) = changes).
    { intros x changes Hx. unfold step.
      change (flat x) with (t_id x, flattenParent x []). cbv beta iota. unfold map_has.
      rewrite HgetCur by (apply in_or_app; destruct Hx; [left|right; right]; auto).
      cbv zeta. cbn [negb]. now rewrite isTaskEqual_refl. }
    assert (Hdiffers : step [] (flat t)
                       = [mkUpdated (t_id t) (flattenParent t [])
                                    (Some (flattenParent t' [])) tag]).
    { assert (Hget' : map_get (t_id t) (List.map flat (pre ++ t' :: post))
                        = Some (flattenParent t' [])).
      { apply (HgetCur t'). apply in_or_app. right. now left. }
      unfold step. change (flat t) with (t_id t, flattenParent t []).
      cbv beta iota. unfold map_has. rewrite Hget'.
      cbv zeta. cbn [negb].
      now rewrite isTaskEqual_priority. }
    rewrite (List.map_app flat pre (t :: post)) at 1. cbn [List.map].
    rewrite fold_left_app. cbn [fold_left].
    rewrite (fold_left_fixed step (List.map flat pre) []).
    2:{ intros e He. apply in_map_iff in He. destruct He as (x & <- & Hx). auto. }
    rewrite Hdiffers.
    rewrite (fold_left_fixed step (List.map flat post)).
    2:{ intros e He. apply in_map_iff in He. destruct He as (x & <- & Hx). auto. }
    apply fold_left_fixed. intros [id v] He.
    apply in_map_iff in He. destruct He as (x & Hx & Hin). injection Hx as <- <-.
    assert (Hhas : map_has (t_id x) (List.map flat (pre ++ t :: post)) = true).
    { assert (Hidin : In (t_id x) (List.map t_id (pre ++ t :: post))).
      { rewrite <- Hids. now apply in_map. }
      apply in_map_iff in Hidin. destruct Hidin as (y & Hy & Hyin).
      rewrite <- Hy. now apply HgetPrev. }
    now rewrite Hhas. }
  fold t'. rewrite Hchanges. reflexivity.
Qed.

Lemma priority_change_is_one_update_witness :
  diffTasks RevSecond
    (Some [("master", Some ([simpleTask 1 "A" "pending"]
                            ++ simpleTask 2 "B" "pending" :: [simpleTask 3 "C" "done"]))])
    (Some [("master", Some ([simpleTask 1 "A" "pending"]
                            ++ withPriority (simpleTask 2 "B" "pending") (JStr "high")
                            :: [simpleTask 3 "C" "done"]))])
  = [mkUpdated (JNum 2) (flattenParent (simpleTask 2 "B" "pending") [])
               (Some (flattenParent (withPriority (simpleTask 2 "B" "pending") (JStr "high")) []))
               "master"].
Proof.
  apply (priority_change_is_one_update RevSecond "master"
           [simpleTask 1 "A" "pending"] [simpleTask 3 "C" "done"]
           (simpleTask 2 "B" "pending") (JStr "high")).
  - repeat constructor.
  - cbn. repeat constructor; cbn; intuition discriminate.
  - discriminate.
Defined.

End Diff.

(** ** Identity map ([getNotionPageId], [setNotionPageId], [removeNotionPageId]) *)

Module Mapping.
Import JS.

(** The mapping is an object [tag -> table] whose values are themselves
    objects [local id -> page id].  Objects are held by reference, so the
    inner tables live in a store and the outer object holds their
    addresses.  An id is used as a property key, hence through its string
    form. *)
Definition loc : Type := positive.

Abbreviation table := (gmap string string).
Abbreviation store := (gmap loc table).
Abbreviation outer := (gmap string loc).

(** What a holder of the outer object [m] observes in store [h]: for every
    tag, the content of its inner table. *)
Definition observe (h : store) (m : outer) : gmap string table :=
  omap (fun l => h !! l) m.

(** [mapping?.[tag]?.[id]] *)
Definition getNotionPageId (h : store) (mapping : outer) (tag : string) (id : jsval)
  : option string :=
  match mapping !! tag with
  | Some l => match h !! l with
              | Some t => t !! toString id
              | None => None
              end
  | None => None
  end.

(** [setNotionPageId(mapping, tag, id, notionId)]: the spread copies the
    outer object only, so [newMapping[tag]] is the table [mapping[tag]]
    itself when the tag is present. *)
Definition setNotionPageId (h : store) (mapping : outer) (tag : string) (id : jsval)
           (notionId : string) : store * outer :=
  let newMapping := mapping in
  let '(h, newMapping) :=
    match newMapping !! tag with
    | Some _ => (h, newMapping)
    | None => let l := fresh (dom h) in (<[l := ∅]> h, <[tag := l]> newMapping)
    end in
  match newMapping !! tag with
  | Some l => (alter (fun t => <[toString id := notionId]> t) l h, newMapping)
  | None => (h, newMapping)
  end.

(** [removeNotionPageId(mapping, tag, id)] *)
Definition removeNotionPageId (h : store) (mapping : outer) (tag : string) (id : jsval)
  : store * outer :=
  let newMapping := mapping in
  match newMapping !! tag with
  | Some l =>
      let h := alter (fun t => delete (toString id) t) l h in
      if bool_decide (size (default ∅ (h !! l)) = 0%nat)
      then (h, delete tag newMapping)
      else (h, newMapping)
  | None => (h, newMapping)
  end.

(** The mapping [{ x: { "1": "a" } }]. *)
Definition store1 : store := {[ 1%positive := {[ "1" := "a" ]} ]}.
Definition mapping1 : outer := {[ "x" := 1%positive ]}.

(** C7 (copy-on-write), at inputs where it fails: after
    [setNotionPageId(mapping, "x", 2, "b")] the mapping passed in shows the
    new entry in its own table for "x", and after
    [removeNotionPageId(mapping, "x", 1)] it shows an empty table for "x",
    while the returned mapping has no tag "x". *)
Theorem mapping_helpers_write_through :
  observe store1 mapping1 = {[ "x" := {[ "1" := "a" ]} ]}
  /\ observe (fst (setNotionPageId store1 mapping1 "x" (JNum 2) "b")) mapping1
     = {[ "x" := {[ "1" := "a"; "2" := "b" ]} ]}
  /\ observe (fst (removeNotionPageId store1 mapping1 "x" (JNum 1))) mapping1
     = {[ "x" := ∅ ]}
  /\ snd (removeNotionPageId store1 mapping1 "x" (JNum 1)) = ∅.
Proof. repeat split; vm_compute; reflexivity. Qed.

(** *** Further facts on the identity map *)

(** Every table the outer object refers to is in the store. *)
Definition wellFormed (h : store) (m : outer) : Prop :=
  forall tag l, m !! tag = Some l -> is_Some (h !! l).

(** No two tags hold the same table, as in a mapping read from its file. *)
Definition unshared (m : outer) : Prop :=
  forall tag1 tag2 l, m !! tag1 = Some l -> m !! tag2 = Some l -> tag1 = tag2.

(** The property names every object literal inherits from
    [Object.prototype].  [newMapping[tag]] is a property read: at a tag
    that is no key of the mapping itself it finds what is inherited under
    that name, so for such a tag [setNotionPageId] does not create a table
    but writes into the inherited object ([Object.prototype] itself for
    ["__proto__"]), which every table shares.  [setNotionPageId] above
    gives a missing tag a new table, which is what the code does for every
    other tag. *)
Definition inheritedNames : list string :=
  [ "__proto__"; "constructor"; "hasOwnProperty"; "isPrototypeOf";
    "propertyIsEnumerable"; "toLocaleString"; "toString"; "valueOf";
    "__defineGetter__"; "__defineSetter__"; "__lookupGetter__";
    "__lookupSetter__" ].

Definition inheritedName (tag : string) : bool :=
  existsb (String.eqb tag) inheritedNames.

Lemma fresh_not_referenced (h : store) (m : outer) tag l :
  wellFormed h m -> m !! tag = Some l -> l <> fresh (dom h).
Proof.
  intros Hwf Hl ->. destruct (Hwf _ _ Hl) as [t Ht].
  apply (is_fresh (dom h)). eapply elem_of_dom_2. exact Ht.
Qed.

Lemma get_after_set_fact (h : store) (m : outer) tag id notionId :
  wellFormed h m ->
  getNotionPageId (setNotionPageId h m tag id notionId).1
                  (setNotionPageId h m tag id notionId).2 tag id
  = Some notionId.
Proof.
  intros Hwf. unfold setNotionPageId, getNotionPageId.
  destruct (m !! tag) as [l|] eqn:Hm.
  - rewrite Hm. cbn [fst snd]. rewrite Hm.
    destruct (Hwf _ _ Hm) as [t Ht].
    rewrite lookup_alter_eq, Ht. cbn. apply lookup_insert_eq.
  - rewrite lookup_insert_eq. cbn [fst snd]. rewrite lookup_insert_eq.
    rewrite lookup_alter_eq, lookup_insert_eq. cbn. apply lookup_insert_eq.
Qed.

(** X1.  Round trip: after [setNotionPageId(mapping, tag, id, notionId)],
    [getNotionPageId] on the returned mapping gives [notionId]. *)
Theorem get_after_set (h : store) (m : outer) tag id notionId :
  wellFormed h m ->
  getNotionPageId (setNotionPageId h m tag id notionId).1
                  (setNotionPageId h m tag id notionId).2 tag id
  = Some notionId.
Proof. exact (get_after_set_fact h m tag id notionId). Qed.

Lemma get_after_set_witness :
  getNotionPageId (setNotionPageId store1 mapping1 "y" (JNum 7) "page-7").1
                  (setNotionPageId store1 mapping1 "y" (JNum 7) "page-7").2
                  "y" (JNum 7)
  = Some "page-7".
Proof.
  apply (get_after_set store1 mapping1 "y" (JNum 7) "page-7").
  intros tag l Hl. unfold mapping1 in Hl.
  apply lookup_singleton_Some in Hl. destruct Hl as [_ <-].
  unfold store1. rewrite lookup_singleton_eq. eauto.
Defined.

Lemma get_other_after_set_fact (h : store) (m : outer) tag id notionId tag' id' :
  wellFormed h m ->
  unshared m ->
  (tag', toString id') <> (tag, toString id) ->
  getNotionPageId (setNotionPageId h m tag id notionId).1
                  (setNotionPageId h m tag id notionId).2 tag' id'
  = getNotionPageId h m tag' id'.
Proof.
  intros Hwf Hun Hne. unfold setNotionPageId, getNotionPageId.
  destruct (m !! tag) as [l|] eqn:Hm.
  - rewrite Hm. cbn [fst snd].
    destruct (m !! tag') as [l'|] eqn:Hm'; [|reflexivity].
    destruct (decide (l = l')) as [<-|Hl].
    + assert (tag' = tag) as -> by (eapply Hun; eauto).
      rewrite lookup_alter_eq. destruct (h !! l) as [t|]; cbn; [|reflexivity].
      apply lookup_insert_ne. congruence.
    + rewrite lookup_alter_ne by exact Hl. reflexivity.
  - rewrite lookup_insert_eq. cbn [fst snd].
    destruct (decide (tag = tag')) as [<-|Htag].
    + rewrite lookup_insert_eq, Hm, lookup_alter_eq, lookup_insert_eq. cbn.
      rewrite lookup_insert_ne by congruence. apply lookup_empty.
    + rewrite lookup_insert_ne by exact Htag.
      destruct (m !! tag') as [l'|] eqn:Hm'; [|reflexivity].
      pose proof (fresh_not_referenced h m tag' l' Hwf Hm') as Hfresh.
      rewrite lookup_alter_ne by congruence.
      rewrite lookup_insert_ne by congruence. reflexivity.
Qed.

(** X2.  Frame: at a tag that is not an inherited property name,
    [setNotionPageId] changes what [getNotionPageId] returns for the
    written tag and key only.  Keys are compared as property names, so the
    ids 1 and "1" are one key. *)
Theorem get_other_after_set (h : store) (m : outer) tag id notionId tag' id' :
  inheritedName tag = false ->
  wellFormed h m ->
  unshared m ->
  (tag', toString id') <> (tag, toString id) ->
  getNotionPageId (setNotionPageId h m tag id notionId).1
                  (setNotionPageId h m tag id notionId).2 tag' id'
  = getNotionPageId h m tag' id'.
Proof. intros _. exact (get_other_after_set_fact h m tag id notionId tag' id'). Qed.

Lemma mapping1_wellFormed : wellFormed store1 mapping1.
Proof.
  intros tag l Hl. unfold mapping1 in Hl.
  apply lookup_singleton_Some in Hl. destruct Hl as [_ <-].
  unfold store1. rewrite lookup_singleton_eq. eauto.
Qed.

Lemma mapping1_unshared : unshared mapping1.
Proof.
  intros t1 t2 l H1 H2. unfold mapping1 in *.
  apply lookup_singleton_Some in H1, H2. destruct H1, H2. congruence.
Qed.

Lemma get_other_after_set_witness :
  getNotionPageId (setNotionPageId store1 mapping1 "x" (JNum 2) "b").1
                  (setNotionPageId store1 mapping1 "x" (JNum 2) "b").2 "x" (JNum 1)
  = getNotionPageId store1 mapping1 "x" (JNum 1).
Proof.
  apply (get_other_after_set store1 mapping1 "x" (JNum 2) "b" "x" (JNum 1)
           eq_refl mapping1_wellFormed mapping1_unshared).
  vm_compute. congruence.
Defined.

(** X5.  [setNotionPageId] keeps the mapping well formed and unshared. *)
Theorem set_keeps_invariants (h : store) (m : outer) tag id notionId :
  wellFormed h m ->
  unshared m ->
  wellFormed (setNotionPageId h m tag id notionId).1
             (setNotionPageId h m tag id notionId).2
  /\ unshared (setNotionPageId h m tag id notionId).2.
Proof.
  intros Hwf Hun. unfold setNotionPageId.
  destruct (m !! tag) as [l|] eqn:Hm.
  - rewrite Hm. cbn [fst snd]. split; [|exact Hun].
    intros tag' l' Hl'. apply lookup_alter_is_Some. eauto.
  - rewrite lookup_insert_eq. cbn [fst snd]. split.
    + intros tag' l' Hl'. apply lookup_alter_is_Some.
      apply lookup_insert_Some in Hl'. destruct Hl' as [[_ <-]|[_ Hl']].
      * rewrite lookup_insert_eq. eauto.
      * apply lookup_insert_is_Some. right. split; [|eauto].
        intros <-. now apply (fresh_not_referenced h m tag' _ Hwf Hl').
    + intros t1 t2 l H1 H2.
      apply lookup_insert_Some in H1, H2.
      destruct H1 as [[<- <-]|[N1 H1]], H2 as [[<- E2]|[N2 H2]]; auto.
      * exfalso. now apply (fresh_not_referenced h m t2 _ Hwf H2).
      * exfalso. subst l. now apply (fresh_not_referenced h m t1 _ Hwf H1).
      * eapply Hun; eauto.
Qed.

Lemma set_keeps_invariants_witness :
  wellFormed (setNotionPageId store1 mapping1 "y" (JNum 7) "page-7").1
             (setNotionPageId store1 mapping1 "y" (JNum 7) "page-7").2
  /\ unshared (setNotionPageId store1 mapping1 "y" (JNum 7) "page-7").2.
Proof.
  exact (set_keeps_invariants store1 mapping1 "y" (JNum 7) "page-7"
           mapping1_wellFormed mapping1_unshared).
Defined.

(** X6.  When the tag is new and not an inherited property name,
    [setNotionPageId] is a true copy-on-write: the mapping passed in shows
    what it showed before. *)
Theorem set_new_tag_preserves_original (h : store) (m : outer) tag id notionId :
  inheritedName tag = false ->
  wellFormed h m ->
  m !! tag = None ->
  observe (setNotionPageId h m tag id notionId).1 m = observe h m.
Proof.
  intros _ Hwf Hm. unfold setNotionPageId. rewrite Hm, lookup_insert_eq.
  cbn [fst snd]. unfold observe. apply map_eq. intros tag'.
  rewrite !lookup_omap. destruct (m !! tag') as [l'|] eqn:Hm'; [|reflexivity].
  cbn. pose proof (fresh_not_referenced h m tag' l' Hwf Hm') as Hfresh.
  rewrite lookup_alter_ne by congruence.
  rewrite lookup_insert_ne by congruence. reflexivity.
Qed.

Lemma set_new_tag_preserves_original_witness :
  observe (setNotionPageId store1 mapping1 "y" (JNum 7) "page-7").1 mapping1
  = observe store1 mapping1.
Proof.
  apply (set_new_tag_preserves_original store1 mapping1 "y" (JNum 7) "page-7"
           eq_refl mapping1_wellFormed).
  reflexivity.
Defined.

Lemma get_after_remove_fact (h : store) (m : outer) tag id :
  getNotionPageId (removeNotionPageId h m tag id).1
                  (removeNotionPageId h m tag id).2 tag id = None
  /\ (forall l,
        (removeNotionPageId h m tag id).2 !! tag = Some l ->
        exists t, (removeNotionPageId h m tag id).1 !! l = Some t /\ t <> ∅).
Proof.
  unfold removeNotionPageId, getNotionPageId.
  destruct (m !! tag) as [l|] eqn:Hm;
    [|cbn [fst snd]; rewrite Hm; split; [reflexivity|congruence]].
  case_bool_decide as Hsize; cbn [fst snd].
  - rewrite lookup_delete_eq. split; [reflexivity|congruence].
  - rewrite Hm. split.
    + rewrite lookup_alter_eq. destruct (h !! l) as [t|]; cbn; [|reflexivity].
      apply lookup_delete_eq.
    + intros l' [= <-].
      destruct (alter (fun t => delete (toString id) t) l h !! l) as [t|] eqn:Ht.
      * exists t. split; [reflexivity|]. cbn in Hsize.
        intros ->. apply Hsize. apply map_size_empty.
      * exfalso. apply Hsize. cbn. apply map_size_empty.
Qed.

(** X3.  After [removeNotionPageId(mapping, tag, id)], [getNotionPageId] on the
    returned mapping gives undefined, and the returned mapping holds the tag
    only with a table that is not empty: a tag whose last id was removed is
    gone. *)
Theorem get_after_remove (h : store) (m : outer) tag id :
  getNotionPageId (removeNotionPageId h m tag id).1
                  (removeNotionPageId h m tag id).2 tag id = None
  /\ (forall l,
        (removeNotionPageId h m tag id).2 !! tag = Some l ->
        exists t, (removeNotionPageId h m tag id).1 !! l = Some t /\ t <> ∅).
Proof. exact (get_after_remove_fact h m tag id). Qed.

Lemma get_other_after_remove_fact (h : store) (m : outer) tag id tag' id' :
  unshared m ->
  (tag', toString id') <> (tag, toString id) ->
  getNotionPageId (removeNotionPageId h m tag id).1
                  (removeNotionPageId h m tag id).2 tag' id'
  = getNotionPageId h m tag' id'.
Proof.
  intros Hun Hne. unfold removeNotionPageId, getNotionPageId.
  destruct (m !! tag) as [l|] eqn:Hm; [|reflexivity].
  assert (Hother : tag' <> tag ->
            match m !! tag' with
            | Some l0 =>
                match alter (fun t => delete (toString id) t) l h !! l0 with
                | Some t => t !! toString id'
                | None => None
                end
            | None => None
            end
            = match m !! tag' with
              | Some l0 => match h !! l0 with
                           | Some t => t !! toString id'
                           | None => None
                           end
              | None => None
              end).
  { intros Htag. destruct (m !! tag') as [l'|] eqn:Hm'; [|reflexivity].
    rewrite lookup_alter_ne; [reflexivity|].
    intros <-. apply Htag. eapply Hun; eauto. }
  destruct (decide (tag' = tag)) as [->|Htag].
  - rewrite Hm. destruct (h !! l) as [t|] eqn:Ht.
    + case_bool_decide as Hsize; cbn [fst snd].
      * rewrite lookup_delete_eq.
        rewrite lookup_alter_eq, Ht in Hsize. cbn in Hsize.
        apply map_size_empty_inv in Hsize.
        rewrite <- (lookup_delete_ne t (toString id) (toString id')) by congruence.
        rewrite Hsize. symmetry. apply lookup_empty.
      * rewrite Hm, lookup_alter_eq, Ht. cbn.
        apply lookup_delete_ne. congruence.
    + case_bool_decide as Hsize; cbn [fst snd].
      * rewrite lookup_delete_eq. reflexivity.
      * rewrite Hm, lookup_alter_eq, Ht. reflexivity.
  - case_bool_decide as Hsize; cbn [fst snd].
    + rewrite lookup_delete_ne by congruence. now apply Hother.
    + now apply Hother.
Qed.

(** X4.  Frame: [removeNotionPageId] changes what [getNotionPageId] returns for
    the removed tag and key only, also when it drops the emptied tag. *)
Theorem get_other_after_remove (h : store) (m : outer) tag id tag' id' :
  unshared m ->
  (tag', toString id') <> (tag, toString id) ->
  getNotionPageId (removeNotionPageId h m tag id).1
                  (removeNotionPageId h m tag id).2 tag' id'
  = getNotionPageId h m tag' id'.
Proof. exact (get_other_after_remove_fact h m tag id tag' id'). Qed.

Lemma get_other_after_remove_witness :
  getNotionPageId (removeNotionPageId store1 mapping1 "x" (JNum 2)).1
                  (removeNotionPageId store1 mapping1 "x" (JNum 2)).2 "x" (JNum 1)
  = getNotionPageId store1 mapping1 "x" (JNum 1).
Proof.
  apply (get_other_after_remove store1 mapping1 "x" (JNum 2) "x" (JNum 1)
           mapping1_unshared).
  vm_compute. congruence.
Defined.

Lemma remove_invariants_fact (h : store) (m : outer) tag id :
  wellFormed h m ->
  unshared m ->
  wellFormed (removeNotionPageId h m tag id).1 (removeNotionPageId h m tag id).2
  /\ unshared (removeNotionPageId h m tag id).2.
Proof.
  intros Hwf Hun. unfold removeNotionPageId.
  destruct (m !! tag) as [l|] eqn:Hm; [|auto].
  case_bool_decide as Hsize; cbn [fst snd].
  - split.
    + intros tag' l' Hl'. apply lookup_delete_Some in Hl'. destruct Hl' as [_ Hl'].
      apply lookup_alter_is_Some. eauto.
    + intros t1 t2 l0 H1 H2.
      apply lookup_delete_Some in H1, H2. destruct H1, H2. eapply Hun; eauto.
  - split; [|exact Hun].
    intros tag' l' Hl'. apply lookup_alter_is_Some. eauto.
Qed.

(** The two mapping steps [syncTasksWithNotion] takes for a [moved]
    record: [removeNotionPageId] on the old place, then [setNotionPageId]
    on the new one. *)
Definition moveNotionPageId (h : store) (mapping : outer)
           (oldTag : string) (oldId : jsval) (newTag : string) (newId : jsval)
           (notionId : string) : store * outer :=
  let '(h, mapping) := removeNotionPageId h mapping oldTag oldId in
  setNotionPageId h mapping newTag newId notionId.

(** X7.  Moving a mapping entry to a tag that is not an inherited property
    name.  After the two steps the page id is found at the new tag and id,
    nothing is found at the old ones when they differ from the new, and
    every other entry reads as before. *)
Theorem move_rekeys_entry (h : store) (m : outer)
    (oldTag : string) (oldId : jsval) (newTag : string) (newId : jsval)
    (notionId : string) :
  inheritedName newTag = false ->
  wellFormed h m ->
  unshared m ->
  let moved := moveNotionPageId h m oldTag oldId newTag newId notionId in
  getNotionPageId moved.1 moved.2 newTag newId = Some notionId
  /\ ((oldTag, toString oldId) <> (newTag, toString newId) ->
      getNotionPageId moved.1 moved.2 oldTag oldId = None)
  /\ (forall tag' id',
        (tag', toString id') <> (oldTag, toString oldId) ->
        (tag', toString id') <> (newTag, toString newId) ->
        getNotionPageId moved.1 moved.2 tag' id' = getNotionPageId h m tag' id').
Proof.
  intros _ Hwf Hun. cbv zeta. unfold moveNotionPageId.
  destruct (remove_invariants_fact h m oldTag oldId Hwf Hun) as [Hwf1 Hun1].
  pose proof (get_after_remove_fact h m oldTag oldId) as [Hgone _].
  pose proof (get_other_after_remove_fact h m oldTag oldId) as Hframe1.
  destruct (removeNotionPageId h m oldTag oldId) as [h1 m1]. cbn [fst snd] in *.
  split; [now apply get_after_set_fact|]. split.
  - intros Hne. rewrite get_other_after_set_fact by auto. exact Hgone.
  - intros tag' id' Hold Hnew.
    rewrite get_other_after_set_fact by auto. now apply Hframe1.
Qed.

Lemma move_rekeys_entry_witness :
  let moved := moveNotionPageId store1 mapping1 "x" (JNum 1) "y" (JNum 4) "a" in
  getNotionPageId moved.1 moved.2 "y" (JNum 4) = Some "a"
  /\ (("x", toString (JNum 1)) <> ("y", toString (JNum 4)) ->
      getNotionPageId moved.1 moved.2 "x" (JNum 1) = None)
  /\ (forall tag' id',
        (tag', toString id') <> ("x", toString (JNum 1)) ->
        (tag', toString id') <> ("y", toString (JNum 4)) ->
        getNotionPageId moved.1 moved.2 tag' id'
        = getNotionPageId store1 mapping1 tag' id').
Proof.
  exact (move_rekeys_entry store1 mapping1 "x" (JNum 1) "y" (JNum 4) "a"
           eq_refl mapping1_wellFormed mapping1_unshared).
Defined.

End Mapping.

(** ** Retry executor ([executeWithRetry]) *)

Module Retry.
Import JS.

(** The fields of a thrown error that the executor reads.  [err_body] is
    [None] when [e.body] is falsy and [Some c] when it is truthy with
    [e.body.code] equal to [c]. *)
Record ApiError : Type := mkApiError {
  err_status : jsval;
  err_code : jsval;
  err_body : option jsval;
  err_message : string
}.

Definition isRateLimit (e : ApiError) : bool :=
  (strictEq (err_status e) (JNum 429)
   || strictEq (err_code e) (JStr "rate_limited")
   || match err_body e with
      | Some c => strictEq c (JStr "rate_limited")
      | None => false
      end)%bool.

Definition isConflict (e : ApiError) : bool := strictEq (err_status e) (JNum 409).

Definition isNetwork (e : ApiError) : bool :=
  (strictEq (err_code e) (JStr "ENOTFOUND")
   || strictEq (err_code e) (JStr "ECONNRESET")
   || strictEq (err_code e) (JStr "ETIMEDOUT"))%bool.

Definition retryable (e : ApiError) : bool :=
  (isRateLimit e || isConflict e || isNetwork e)%bool.

Record Options : Type := mkOptions {
  retries : Z;
  minDelay : Z;
  maxDelay : Z;
  factor : Z
}.

Definition defaultOptions : Options := mkOptions 5 500 8000 2.

Section Executor.
(** The awaited operation [fn]: every call reads and changes the world
    and either returns a value or throws. *)
Context {World A : Type}.
Variable fn : World -> (A + ApiError) * World.
Variable options : Options.

(** One run of the executor: what it returns or throws, the result of
    every call of [fn] in order, the delays slept, the world left. *)
Record Run : Type := mkRun {
  outcome : A + ApiError;
  trace : list (A + ApiError);
  waits : list Z;
  final : World
}.

(** The [while (true)] loop, one iteration per unit of fuel. *)
Fixpoint retryLoop (fuel : nat) (attempt delay : Z) (w : World) : option Run :=
  match fuel with
  | O => None
  | S fuel =>
      match fn w with
      | (inl a, w) => Some (mkRun (inl a) [inl a] [] w)
      | (inr e, w) =>
          if (retryable e && (attempt <? retries options)%Z)%bool then
            let wait := Z.min delay (maxDelay options) in
            match retryLoop fuel (attempt + 1) (delay * factor options) w with
            | Some run => Some (mkRun (outcome run) (inr e :: trace run)
                                      (wait :: waits run) (final run))
            | None => None
            end
          else Some (mkRun (inr e) [inr e] [] w)
      end
  end.

Definition executeWithRetry (w : World) : option Run :=
  retryLoop (S (Z.to_nat (retries options))) 0 (minDelay options) w.

(** A call that threw an error the executor retries on. *)
Definition retriedFailure (r : A + ApiError) : Prop :=
  match r with inr e => retryable e = true | inl _ => False end.

Lemma retryLoop_spec fuel : forall attempt delay w,
  (Z.to_nat (retries options - attempt) < fuel)%nat ->
  exists run,
    retryLoop fuel attempt delay w = Some run
    /\ exists earlier,
        trace run = earlier ++ [outcome run]
        /\ Forall retriedFailure earlier
        /\ (List.length earlier <= Z.to_nat (retries options - attempt))%nat
        /\ (forall e, outcome run = inr e ->
              retryable e = false
              \/ List.length earlier = Z.to_nat (retries options - attempt)).
Proof.
  induction fuel as [|fuel IH]; intros attempt delay w Hfuel; [lia|].
  simpl. destruct (fn w) as [[a|e] w'] eqn:Hfn.
  - eexists. split; [reflexivity|]. exists []. simpl.
    split; [reflexivity|]. split; [constructor|]. split; [lia|].
    intros e He. discriminate.
  - destruct (retryable e) eqn:Hre; simpl.
    + destruct (attempt <? retries options)%Z eqn:Hlt.
      * apply Z.ltb_lt in Hlt.
        destruct (IH (attempt + 1)%Z (delay * factor options)%Z w') as
          (run & Hrun & earlier & Htr & Hall & Hlen & Hlast); [lia|].
        rewrite Hrun. eexists. split; [reflexivity|].
        exists (inr e :: earlier). simpl. rewrite Htr.
        split; [reflexivity|]. split; [constructor; auto|]. split; [lia|].
        intros e' He'. destruct (Hlast e' He') as [H|H]; [now left|right]. lia.
      * apply Z.ltb_ge in Hlt.
        eexists. split; [reflexivity|]. exists []. simpl.
        split; [reflexivity|]. split; [constructor|]. split; [lia|].
        intros e' He'. right. lia.
    + eexists. split; [reflexivity|]. exists []. simpl.
      split; [reflexivity|]. split; [constructor|]. split; [lia|].
      intros e' He'. left. congruence.
Qed.
End Executor.

Arguments Run : clear implicits.

(** An error with status 429, and one with status 401. *)
Definition rateLimited : ApiError := mkApiError (JNum 429) JUndefined None "rate limited".
Definition unauthorized : ApiError := mkApiError (JNum 401) JUndefined None "unauthorized".

(** An operation that counts its calls and always throws [e]. *)
Definition alwaysThrows (e : ApiError) (w : nat) : (unit + ApiError) * nat :=
  (inr e, S w).

(** [n] calls of [fn] in a row, the first on [w] and each later one on the
    world the call before it left: their results in order, and the world
    after the last. *)
Fixpoint calls {World A : Type} (fn : World -> (A + ApiError) * World)
         (n : nat) (w : World) : list (A + ApiError) * World :=
  match n with
  | O => ([], w)
  | S n =>
      let '(r, w) := fn w in
      let '(rs, w) := calls fn n w in
      (r :: rs, w)
  end.

Lemma retryLoop_calls {World A : Type} (fn : World -> (A + ApiError) * World)
      (options : Options) fuel : forall attempt delay w run,
  retryLoop fn options fuel attempt delay w = Some run ->
  calls fn (List.length (trace run)) w = (trace run, final run).
Proof.
  induction fuel as [|fuel IH]; intros attempt delay w run Hrun; [discriminate|].
  simpl in Hrun. destruct (fn w) as [[a|e] w'] eqn:Hfn.
  - injection Hrun as <-. simpl. now rewrite Hfn.
  - destruct (retryable e && (attempt <? retries options)%Z)%bool.
    + destruct (retryLoop fn options fuel (attempt + 1) (delay * factor options) w')
        as [run'|] eqn:Hrun'; [|discriminate].
      injection Hrun as <-. cbn [trace final List.length calls].
      rewrite Hfn, (IH _ _ _ _ Hrun'). reflexivity.
    + injection Hrun as <-. simpl. now rewrite Hfn.
Qed.

(** C5 (retry termination and propagation).  (1) With [retries = 3], an
    operation that throws a rate-limit error at every call is called
    exactly four times, each call on the world the call before it left,
    with three delays in between; the executor then throws the error of the
    fourth call and leaves the world of the fourth call.  (2) For every
    operation and options the executor returns after [k + 1] calls of the
    operation, [k] at most [retries], and leaves the world of the last
    call; the result or error of the last call is its outcome, unchanged;
    every earlier call threw a retryable error; an error is the outcome
    only when it is not retryable or when [retries] calls came before it.
    (3) A first call that throws a non-retryable error is the only call,
    and its error is the outcome. *)
Theorem executeWithRetry_contract {World A : Type} :
  (forall (fn : World -> (A + ApiError) * World) minD maxD fac w,
      (forall w, exists e w', fn w = (inr e, w') /\ isRateLimit e = true) ->
      exists e1 e2 e3 e4 w',
        calls fn 4 w = ([inr e1; inr e2; inr e3; inr e4], w')
        /\ executeWithRetry fn (mkOptions 3 minD maxD fac) w
           = Some (mkRun (inr e4) [inr e1; inr e2; inr e3; inr e4]
                         [Z.min minD maxD; Z.min (minD * fac) maxD;
                          Z.min (minD * fac * fac) maxD] w')
        /\ isRateLimit e4 = true)
  /\ (forall (fn : World -> (A + ApiError) * World) options w,
        exists run earlier,
          executeWithRetry fn options w = Some run
          /\ calls fn (S (List.length earlier)) w = (earlier ++ [outcome run], final run)
          /\ trace run = earlier ++ [outcome run]
          /\ Forall retriedFailure earlier
          /\ (List.length earlier <= Z.to_nat (retries options))%nat
          /\ (forall e, outcome run = inr e ->
                retryable e = false
                \/ List.length earlier = Z.to_nat (retries options)))
  /\ (forall (fn : World -> (A + ApiError) * World) options w e w',
        fn w = (inr e, w') ->
        retryable e = false ->
        calls fn 1 w = ([inr e], w')
        /\ executeWithRetry fn options w = Some (mkRun (inr e) [inr e] [] w')).
Proof.
  split; [|split].
  - intros fn minD maxD fac w Hfn.
    unfold executeWithRetry. simpl retries. simpl minDelay.
    change (S (Z.to_nat 3)) with 4%nat.
    assert (Hr : forall e, isRateLimit e = true -> retryable e = true).
    { intros e He. unfold retryable. now rewrite He. }
    destruct (Hfn w) as (e1 & w1 & H1 & R1).
    destruct (Hfn w1) as (e2 & w2 & H2 & R2).
    destruct (Hfn w2) as (e3 & w3 & H3 & R3).
    destruct (Hfn w3) as (e4 & w4 & H4 & R4).
    exists e1, e2, e3, e4, w4. split; [|split; [|exact R4]].
    + simpl. now rewrite H1, H2, H3, H4.
    + simpl. rewrite H1, (Hr e1 R1). simpl.
      rewrite H2, (Hr e2 R2). simpl.
      rewrite H3, (Hr e3 R3). simpl.
      rewrite H4, (Hr e4 R4). reflexivity.
  - intros fn options w.
    destruct (retryLoop_spec fn options (S (Z.to_nat (retries options))) 0
                (minDelay options) w) as (run & Hrun & earlier & Htr & H);
      [rewrite Z.sub_0_r; lia|].
    rewrite Z.sub_0_r in H.
    exists run, earlier. split; [exact Hrun|]. split; [|split; [exact Htr|exact H]].
    pose proof (retryLoop_calls fn options _ _ _ _ _ Hrun) as Hcalls.
    rewrite Htr in Hcalls. rewrite length_app, Nat.add_comm in Hcalls. exact Hcalls.
  - intros fn options w e w' Hfn Hre. split.
    + simpl. now rewrite Hfn.
    + unfold executeWithRetry. simpl. now rewrite Hfn, Hre.
Qed.

Lemma executeWithRetry_contract_witness :
  (exists e1 e2 e3 e4 w',
      calls (alwaysThrows rateLimited) 4 0%nat = ([inr e1; inr e2; inr e3; inr e4], w')
      /\ executeWithRetry (alwaysThrows rateLimited) (mkOptions 3 500 8000 2) 0%nat
         = Some (mkRun (inr e4) [inr e1; inr e2; inr e3; inr e4]
                       [Z.min 500 8000; Z.min (500 * 2) 8000; Z.min (500 * 2 * 2) 8000] w')
      /\ isRateLimit e4 = true)
  /\ (calls (alwaysThrows unauthorized) 1 0%nat = ([inr unauthorized], 1%nat)
      /\ executeWithRetry (alwaysThrows unauthorized) defaultOptions 0%nat
         = Some (mkRun (inr unauthorized) [inr unauthorized] [] 1%nat)).
Proof.
  split.
  - apply (proj1 executeWithRetry_contract (alwaysThrows rateLimited) 500 8000 2 0%nat)%Z.
    intros w. exists rateLimited, (S w). split; reflexivity.
  - apply (proj2 (proj2 executeWithRetry_contract) (alwaysThrows unauthorized)
             defaultOptions 0%nat unauthorized 1%nat); reflexivity.
Defined.

(** The run of the executor on an operation that counts its calls and is
    always rate limited: with [retries = 3] the count ends at four. *)
Example executeWithRetry_four_calls :
  executeWithRetry (alwaysThrows rateLimited) (mkOptions 3 500 8000 2) 0%nat
  = Some (mkRun (inr rateLimited)
                [inr rateLimited; inr rateLimited; inr rateLimited; inr rateLimited]
                [500; 1000; 2000]%Z 4%nat).
Proof. reflexivity. Qed.

(** *** Further facts on the retry executor *)

(** The delays of a run that starts at [delay]: the [k]-th is
    [min(delay * factor^k, maxDelay)]. *)
Definition backoff (options : Options) (delay : Z) (n : nat) : list Z :=
  List.map (fun k => Z.min (delay * factor options ^ Z.of_nat k) (maxDelay options))
           (seq 0 n).

Lemma backoff_succ options delay n :
  backoff options delay (S n)
  = Z.min delay (maxDelay options) :: backoff options (delay * factor options) n.
Proof.
  unfold backoff. cbn [seq List.map]. f_equal.
  - now rewrite Z.pow_0_r, Z.mul_1_r.
  - rewrite <- seq_shift, List.map_map. apply List.map_ext. intros k.
    rewrite Nat2Z.inj_succ, Z.pow_succ_r by lia. f_equal. ring.
Qed.

Lemma retryLoop_waits {World A : Type} (fn : World -> (A + ApiError) * World)
      (options : Options) fuel : forall attempt delay w run,
  retryLoop fn options fuel attempt delay w = Some run ->
  exists n, List.length (trace run) = S n
            /\ waits run = backoff options delay n.
Proof.
  induction fuel as [|fuel IH]; intros attempt delay w run Hrun; [discriminate|].
  simpl in Hrun. destruct (fn w) as [[a|e] w'].
  - injection Hrun as <-. exists 0%nat. split; reflexivity.
  - destruct (retryable e && (attempt <? retries options)%Z)%bool.
    + destruct (retryLoop fn options fuel (attempt + 1) (delay * factor options) w')
        as [run'|] eqn:Hrun'; [|discriminate].
      injection Hrun as <-. destruct (IH _ _ _ _ Hrun') as (n & Hlen & Hw).
      exists (S n). cbn [trace waits List.length]. split; [now rewrite Hlen|].
      now rewrite Hw, backoff_succ.
    + injection Hrun as <-. exists 0%nat. split; reflexivity.
Qed.

(** X8.  Backoff schedule.  A run sleeps once between two consecutive calls; the
    [k]-th delay is [min(minDelay * factor^k, maxDelay)], so none exceeds
    [maxDelay]. *)
Theorem executeWithRetry_backoff {World A : Type}
    (fn : World -> (A + ApiError) * World) (options : Options) (w : World) :
  exists run n,
    executeWithRetry fn options w = Some run
    /\ List.length (trace run) = S n
    /\ waits run
       = List.map (fun k => Z.min (minDelay options * factor options ^ Z.of_nat k)
                                  (maxDelay options)) (seq 0 n)
    /\ Forall (fun d => (d <= maxDelay options)%Z) (waits run).
Proof.
  destruct (retryLoop_spec fn options (S (Z.to_nat (retries options))) 0
              (minDelay options) w) as (run & Hrun & _);
    [rewrite Z.sub_0_r; lia|].
  destruct (retryLoop_waits fn options _ _ _ _ _ Hrun) as (n & Hlen & Hw).
  exists run, n. repeat split; auto.
  rewrite Hw. unfold backoff. apply Forall_forall. intros d Hd.
  apply in_map_iff in Hd. destruct Hd as (k & <- & _). lia.
Qed.

(** X9.  A value returned by [fn] after failures that are retried is the value
    the executor returns: with [k] retryable failures first, [k] at most
    [retries], the executor makes [k + 1] calls. *)
Theorem executeWithRetry_recovers {World A : Type}
    (fn : World -> (A + ApiError) * World) (options : Options) (w : World) :
  forall run a,
    executeWithRetry fn options w = Some run ->
    In (inl a) (trace run) ->
    outcome run = inl a
    /\ (List.length (trace run) <= S (Z.to_nat (retries options)))%nat.
Proof.
  intros run a Hrun Hin.
  destruct (retryLoop_spec fn options (S (Z.to_nat (retries options))) 0
              (minDelay options) w) as (run' & Hrun' & earlier & Htr & Hall & Hlen & _);
    [rewrite Z.sub_0_r; lia|].
  unfold executeWithRetry in Hrun. rewrite Hrun in Hrun'. injection Hrun' as <-.
  rewrite Z.sub_0_r in Hlen. rewrite Htr in Hin |- *. split.
  - apply in_app_or in Hin. destruct Hin as [Hin|[Hin|[]]]; [|now symmetry].
    rewrite Forall_forall in Hall. specialize (Hall _ Hin). contradiction.
  - rewrite length_app. simpl. lia.
Qed.

(** An operation that fails with status 409 twice and then returns 7. *)
Definition flaky (w : nat) : (Z + ApiError) * nat :=
  if (w <? 2)%nat then (inr (mkApiError (JNum 409) JUndefined None "conflict"), S w)
  else (inl 7%Z, S w).

Lemma executeWithRetry_recovers_witness :
  outcome (mkRun (inl 7%Z)
                 [inr (mkApiError (JNum 409) JUndefined None "conflict");
                  inr (mkApiError (JNum 409) JUndefined None "conflict"); inl 7%Z]
                 [500; 1000]%Z 3%nat) = inl 7%Z
  /\ (List.length
        (trace (mkRun (inl 7%Z)
                 [inr (mkApiError (JNum 409) JUndefined None "conflict");
                  inr (mkApiError (JNum 409) JUndefined None "conflict"); inl 7%Z]
                 [500; 1000]%Z 3%nat))
      <= S (Z.to_nat (retries defaultOptions)))%nat.
Proof.
  apply (executeWithRetry_recovers flaky defaultOptions 0%nat _ 7%Z).
  - reflexivity.
  - simpl. auto.
Defined.

End Retry.

(** ** Transactional operations ([CompositeOperation]) *)

Module Operations.

Section Composite.
(** [World] is everything an operation can read and change; [Result] is
    what [execute] resolves to and [Error] what it throws. *)
Context {World Result Error : Type}.

(** An operation object: [name], [execute()] and [rollback(result)]. *)
Record Operation : Type := mkOperation {
  name : string;
  execute : World -> (Result + Error) * World;
  rollback : Result -> World -> option Error * World
}.

(** What a run does, in order: the method calls on the operations and the
    lines written with [logger.error]. *)
Inductive Event : Type :=
| CallExecute (op : Operation)
| CallRollback (op : Operation) (result : Result)
| LogRollbackFailed (opName : string) (rollbackError : Error).

(** The fields of a [CompositeOperation]. *)
Record Composite : Type := mkComposite {
  operations : list Operation;
  executedOperations : list (Operation * Result)
}.

(** The constructor: [executedOperations] starts empty. *)
Definition newComposite (ops : list Operation) : Composite := mkComposite ops [].

(** The loop of [rollbackExecuted], from the last entry to the first; a
    rollback that throws is logged and the loop goes on. *)
Definition rollbackLoop (executed : list (Operation * Result)) (w : World)
  : World * list Event :=
  fold_left
    (fun '(w, events) '(operation, result) =>
       match rollback operation result w with
       | (None, w) => (w, events ++ [CallRollback operation result])
       | (Some rollbackError, w) =>
           (w, events ++ [CallRollback operation result;
                          LogRollbackFailed (name operation) rollbackError])
       end)
    (rev executed) (w, []).

(** [rollbackExecuted()]: runs the loop and empties [executedOperations]. *)
Definition rollbackExecuted (c : Composite) (w : World)
  : Composite * World * list Event :=
  let '(w, events) := rollbackLoop (executedOperations c) w in
  (mkComposite (operations c) [], w, events).

(** The loop of [execute()] over the operations still to run. *)
Fixpoint executeLoop (todo : list Operation) (results : list (string * Result))
         (c : Composite) (w : World) (events : list Event)
  : (list (string * Result) + Error) * Composite * World * list Event :=
  match todo with
  | [] => (inl results, c, w, events)
  | operation :: todo =>
      match execute operation w with
      | (inl result, w) =>
          executeLoop todo
            (results ++ [(name operation, result)])
            (mkComposite (operations c) (executedOperations c ++ [(operation, result)]))
            w (events ++ [CallExecute operation])
      | (inr error, w) =>
          let '(c, w, rolled) := rollbackExecuted c w in
          (inr error, c, w, events ++ [CallExecute operation] ++ rolled)
      end
  end.

(** [CompositeOperation.execute()] *)
Definition compositeExecute (c : Composite) (w : World)
  : (list (string * Result) + Error) * Composite * World * list Event :=
  executeLoop (operations c) [] c w [].

(** The calls of [rollback] in a run, in order. *)
Definition rollbackCalls (events : list Event) : list (Operation * Result) :=
  flat_map (fun ev => match ev with
                      | CallRollback op result => [(op, result)]
                      | _ => []
                      end) events.

(** The calls of [execute] in a run, in order. *)
Definition executeCalls (events : list Event) : list Operation :=
  flat_map (fun ev => match ev with
                      | CallExecute op => [op]
                      | _ => []
                      end) events.
End Composite.

Arguments Operation : clear implicits.
Arguments Event : clear implicits.
Arguments Composite : clear implicits.

(** An operation on a journal of lines: [execute] and [rollback] write a
    line each; [execute] throws when [fails] is set. *)
Definition journalOp (n : string) (fails : bool) : Operation (list string) string string :=
  mkOperation n
    (fun w => (if fails then inr ("failed " ++ n)%string else inl ("done " ++ n)%string,
               w ++ [("execute " ++ n)%string]))
    (fun _ w => (None, w ++ [("rollback " ++ n)%string])).

(** C6 (transactional rollback).  In a new composite of three operations
    whose first two [execute] succeed and whose third throws [error], each
    operation is executed once, then [rollback] is called once on the second
    with its result and once on the first with its result, in that order,
    and the composite's [execute] throws [error] itself; the list of
    executed operations is left empty. *)
Theorem composite_rolls_back_in_reverse {World Result Error : Type}
    (op1 op2 op3 : Operation World Result Error)
    (w0 w1 w2 w3 : World) (r1 r2 : Result) (error : Error) :
  execute op1 w0 = (inl r1, w1) ->
  execute op2 w1 = (inl r2, w2) ->
  execute op3 w2 = (inr error, w3) ->
  exists c w events,
    compositeExecute (newComposite [op1; op2; op3]) w0 = (inr error, c, w, events)
    /\ executeCalls events = [op1; op2; op3]
    /\ rollbackCalls events = [(op2, r2); (op1, r1)]
    /\ w = snd (rollback op1 r1 (snd (rollback op2 r2 w3)))
    /\ executedOperations c = [].
Proof.
  intros H1 H2 H3.
  unfold compositeExecute, newComposite. simpl.
  rewrite H1. simpl. rewrite H2. simpl. rewrite H3.
  unfold rollbackExecuted, rollbackLoop. simpl.
  destruct (rollback op2 r2 w3) as [[e2|] w4] eqn:R2;
    destruct (rollback op1 r1 w4) as [[e1|] w5] eqn:R1; simpl;
    eexists _, _, _; (split; [reflexivity|]); simpl; rewrite ?R1; auto.
Qed.

Lemma composite_rolls_back_in_reverse_witness :
  exists c w events,
    compositeExecute
      (newComposite [journalOp "a" false; journalOp "b" false; journalOp "c" true]) []
    = (inr "failed c", c, w, events)
    /\ executeCalls events = [journalOp "a" false; journalOp "b" false; journalOp "c" true]
    /\ rollbackCalls events = [(journalOp "b" false, "done b"); (journalOp "a" false, "done a")]
    /\ w = snd (rollback (journalOp "a" false) "done a"
                 (snd (rollback (journalOp "b" false) "done b"
                         ["execute a"; "execute b"; "execute c"])))
    /\ executedOperations c = [].
Proof.
  apply (composite_rolls_back_in_reverse
           (journalOp "a" false) (journalOp "b" false) (journalOp "c" true)
           [] ["execute a"] ["execute a"; "execute b"]
           ["execute a"; "execute b"; "execute c"]);
    reflexivity.
Defined.

(** *** Further facts on composite operations *)

Section CompositeFacts.
Context {World Result Error : Type}.
Abbreviation Op := (Operation World Result Error).
Abbreviation Ev := (Event World Result Error).

(** [CompositeOperation.rollback(result)] *)
Definition compositeRollback (c : Composite World Result Error) (w : World)
  : Composite World Result Error * World * list Ev :=
  rollbackExecuted c w.

Lemma rollbackCalls_app (e1 e2 : list Ev) :
  rollbackCalls (e1 ++ e2) = rollbackCalls e1 ++ rollbackCalls e2.
Proof. unfold rollbackCalls. apply flat_map_app. Qed.

Lemma executeCalls_app (e1 e2 : list Ev) :
  executeCalls (e1 ++ e2) = executeCalls e1 ++ executeCalls e2.
Proof. unfold executeCalls. apply flat_map_app. Qed.

Lemma rollback_fold_calls (l : list (Op * Result)) : forall (w : World) (events : list Ev),
  let r := fold_left
      (fun '(w, events) '(operation, result) =>
         match rollback operation result w with
         | (None, w) => (w, events ++ [CallRollback operation result])
         | (Some rollbackError, w) =>
             (w, events ++ [CallRollback operation result;
                            LogRollbackFailed (name operation) rollbackError])
         end) l (w, events) in
  rollbackCalls (snd r) = rollbackCalls events ++ l
  /\ executeCalls (snd r) = executeCalls events.
Proof.
  induction l as [|[op res] l IH]; intros w events; cbn [fold_left].
  - cbv zeta. cbn [snd]. now rewrite app_nil_r.
  - destruct (rollback op res w) as [[e|] w'].
    + destruct (IH w' (events ++ [CallRollback op res; LogRollbackFailed (name op) e]))
        as [H1 H2].
      cbv zeta in *. rewrite H1, H2, rollbackCalls_app, executeCalls_app. cbn.
      now rewrite <- app_assoc, app_nil_r.
    + destruct (IH w' (events ++ [CallRollback op res])) as [H1 H2].
      cbv zeta in *. rewrite H1, H2, rollbackCalls_app, executeCalls_app. cbn.
      now rewrite <- app_assoc, app_nil_r.
Qed.

Lemma rollbackLoop_calls (executed : list (Op * Result)) (w : World) :
  rollbackCalls (snd (rollbackLoop executed w)) = rev executed
  /\ executeCalls (snd (rollbackLoop executed w)) = [].
Proof.
  unfold rollbackLoop. destruct (rollback_fold_calls (rev executed) w []) as [H1 H2].
  cbv zeta in *. auto.
Qed.

(** The operations [ops] run one after the other from [w], every one of
    them succeeding: their results in order, and the world after the
    last. *)
Inductive Executes : list Op -> World -> list Result -> World -> Prop :=
| Executes_nil (w : World) : Executes [] w [] w
| Executes_cons (op : Op) (ops : list Op) (w w1 w2 : World) (r : Result) (rs : list Result) :
    execute op w = (inl r, w1) ->
    Executes ops w1 rs w2 ->
    Executes (op :: ops) w (r :: rs) w2.

(** The world once the operations in [executed], given in the order of
    their execution, are rolled back from [w]: the later ones first, every
    one with its own result. *)
Fixpoint unwind (executed : list (Op * Result)) (w : World) : World :=
  match executed with
  | [] => w
  | (operation, result) :: later => snd (rollback operation result (unwind later w))
  end.

Lemma Executes_length ops : forall w rs w', Executes ops w rs w' ->
  List.length rs = List.length ops.
Proof.
  induction ops as [|op ops IH]; intros w rs w' H; inversion H; subst; cbn; auto.
  f_equal. eauto.
Qed.

Lemma Executes_snoc ops : forall w rs w1 op r w2,
  Executes ops w rs w1 ->
  execute op w1 = (inl r, w2) ->
  Executes (ops ++ [op]) w (rs ++ [r]) w2.
Proof.
  induction ops as [|o ops IH]; intros w rs w1 op r w2 H Hop; inversion H; subst; cbn.
  - econstructor; [exact Hop|constructor].
  - econstructor; [eassumption|]. eapply IH; eassumption.
Qed.

Lemma unwind_snoc (executed : list (Op * Result)) op r w :
  unwind (executed ++ [(op, r)]) w = unwind executed (snd (rollback op r w)).
Proof.
  induction executed as [|[o res] executed IH]; cbn; [reflexivity|]. now rewrite IH.
Qed.

Lemma rollback_fold_world (l : list (Op * Result)) : forall (w : World) (events : list Ev),
  fst (fold_left
      (fun '(w, events) '(operation, result) =>
         match rollback operation result w with
         | (None, w) => (w, events ++ [CallRollback operation result])
         | (Some rollbackError, w) =>
             (w, events ++ [CallRollback operation result;
                            LogRollbackFailed (name operation) rollbackError])
         end) l (w, events))
  = unwind (rev l) w.
Proof.
  induction l as [|[op res] l IH]; intros w events; cbn [fold_left rev].
  - reflexivity.
  - rewrite unwind_snoc.
    destruct (rollback op res w) as [[e|] w']; cbn [snd]; apply IH.
Qed.

Lemma rollbackLoop_world (executed : list (Op * Result)) (w : World) :
  fst (rollbackLoop executed w) = unwind executed w.
Proof.
  unfold rollbackLoop. now rewrite rollback_fold_world, rev_involutive.
Qed.

(** X11.  Rollback of a composite calls [rollback] once on every executed
    operation with its own result, last executed first, whether or not a
    rollback throws, and leaves the world those rollbacks leave; it keeps
    the operations and leaves nothing to roll back, so a second rollback
    calls nothing and leaves the world as it is. *)
Theorem compositeRollback_once (c : Composite World Result Error) (w : World) :
  let '(c1, w1, events1) := compositeRollback c w in
  rollbackCalls events1 = rev (executedOperations c)
  /\ executeCalls events1 = []
  /\ w1 = unwind (executedOperations c) w
  /\ c1 = mkComposite (operations c) []
  /\ compositeRollback c1 w1 = (c1, w1, []).
Proof.
  unfold compositeRollback, rollbackExecuted.
  pose proof (rollbackLoop_calls (executedOperations c) w) as [H1 H2].
  pose proof (rollbackLoop_world (executedOperations c) w) as H3.
  destruct (rollbackLoop (executedOperations c) w) as [w1 events1].
  cbn [fst snd] in *. repeat split; auto.
Qed.

Lemma executeLoop_contract (todo : list Op) :
  forall results (c : Composite World Result Error) w events,
    let '(out, c', w', events') := executeLoop todo results c w events in
    exists new,
      events' = events ++ new
      /\ match out with
         | inl results' =>
             exists rs,
               Executes todo w rs w'
               /\ executeCalls new = todo
               /\ rollbackCalls new = []
               /\ results' = results ++ combine (List.map name todo) rs
               /\ c' = mkComposite (operations c)
                                   (executedOperations c ++ combine todo rs)
         | inr error =>
             exists done failing rest rs w1 w2,
               todo = done ++ failing :: rest
               /\ Executes done w rs w1
               /\ execute failing w1 = (inr error, w2)
               /\ executeCalls new = done ++ [failing]
               /\ rollbackCalls new = rev (executedOperations c ++ combine done rs)
               /\ w' = unwind (executedOperations c ++ combine done rs) w2
               /\ c' = mkComposite (operations c) []
         end.
Proof.
  induction todo as [|op todo IH]; intros results c w events.
  - cbn. exists []. rewrite app_nil_r. split; [reflexivity|].
    exists []. rewrite !app_nil_r. repeat split; [constructor|now destruct c].
  - cbn [executeLoop]. destruct (execute op w) as [[res|err] w1] eqn:Hop.
    + specialize (IH (results ++ [(name op, res)])
                     (mkComposite (operations c) (executedOperations c ++ [(op, res)]))
                     w1 (events ++ [CallExecute op])).
      destruct (executeLoop todo _ _ w1 _) as [[[out c'] w'] events'].
      destruct IH as (new & Hev & Hout).
      exists (CallExecute op :: new). split.
      { rewrite Hev, <- app_assoc. reflexivity. }
      change (CallExecute op :: new) with ([CallExecute op] ++ new).
      rewrite executeCalls_app, rollbackCalls_app.
      cbn [executedOperations operations] in Hout.
      destruct out as [results'|err].
      * destruct Hout as (rs & Hrun & Hex & Hrb & Hres & Hc).
        exists (res :: rs). cbn [List.map combine].
        rewrite Hex, Hrb, Hres, Hc, <- !app_assoc.
        repeat split; auto. econstructor; eassumption.
      * destruct Hout as (done & failing & rest & rs & wa & wb
                          & Htodo & Hrun & Hfail & Hex & Hrb & Hw & Hc).
        exists (op :: done), failing, rest, (res :: rs), wa, wb.
        cbn [combine]. rewrite Hex, Hrb, Hw, Hc, Htodo, <- !app_assoc.
        repeat split; auto. econstructor; eassumption.
    + unfold rollbackExecuted.
      pose proof (rollbackLoop_calls (executedOperations c) w1) as [H1 H2].
      pose proof (rollbackLoop_world (executedOperations c) w1) as H3.
      destruct (rollbackLoop (executedOperations c) w1) as [w2 rolled].
      cbn [fst snd] in *.
      exists (CallExecute op :: rolled). split; [reflexivity|].
      exists [], op, todo, [], w, w1. cbn [combine].
      change (CallExecute op :: rolled) with ([CallExecute op] ++ rolled).
      rewrite executeCalls_app, rollbackCalls_app, H1, H2, H3, !app_nil_r.
      repeat split; auto. constructor.
Qed.

(** X10.  The composite as a unit, for any number of operations.  Either every
    operation is executed once, in order, each in the world the one before
    it left, nothing is rolled back and the results are returned under the
    operations' names; or [execute] throws at some operation, no later
    operation is executed, exactly the operations executed before it are
    rolled back, once each with their own result, in reverse order, the
    world is the one those rollbacks leave, the list of executed operations
    is empty, and the error thrown is that operation's. *)
Theorem composite_all_or_nothing (ops : list Op) (w : World) :
  let '(out, c, w', events) := compositeExecute (newComposite ops) w in
  match out with
  | inl results =>
      exists rs,
        Executes ops w rs w'
        /\ executeCalls events = ops
        /\ rollbackCalls events = []
        /\ results = combine (List.map name ops) rs
        /\ c = mkComposite ops (combine ops rs)
  | inr error =>
      exists done failing rest rs w1 w2,
        ops = done ++ failing :: rest
        /\ Executes done w rs w1
        /\ execute failing w1 = (inr error, w2)
        /\ executeCalls events = done ++ [failing]
        /\ rollbackCalls events = rev (combine done rs)
        /\ w' = unwind (combine done rs) w2
        /\ c = mkComposite ops []
  end.
Proof.
  unfold compositeExecute, newComposite. cbn [operations].
  pose proof (executeLoop_contract ops [] (mkComposite ops []) w []) as H.
  destruct (executeLoop ops [] (mkComposite ops []) w []) as [[[out c] w'] events].
  destruct H as (new & Hev & Hout). cbn in Hev. subst new.
  destruct out; exact Hout.
Qed.

(** A run on the journal: the second of three operations throws, so the
    first is rolled back and the third never runs. *)
Example compositeExecute_run :
  compositeExecute
    (newComposite [journalOp "a" false; journalOp "b" true; journalOp "c" false]) []
  = (inr "failed b",
     mkComposite [journalOp "a" false; journalOp "b" true; journalOp "c" false] [],
     ["execute a"; "execute b"; "rollback a"],
     [CallExecute (journalOp "a" false); CallExecute (journalOp "b" true);
      CallRollback (journalOp "a" false) "done a"]).
Proof. reflexivity. Qed.
End CompositeFacts.

End Operations.

(** ** Capability detection ([checkRelationProperties]) *)

Module Hierarchy.

(** Property names are taken as ASCII strings: [toLowerCase] maps the
    letters A to Z and leaves every other character as it is. *)
Definition lowerChar (c : ascii) : ascii :=
  let n := nat_of_ascii c in
  if (Nat.leb 65 n && Nat.leb n 90)%bool then ascii_of_nat (n + 32) else c.

Fixpoint toLowerCase (s : string) : string :=
  match s with
  | EmptyString => EmptyString
  | String c r => String (lowerChar c) (toLowerCase r)
  end.

(** [hay.includes(needle)] *)
Fixpoint strIncludes (needle hay : string) : bool :=
  (String.prefix needle hay
   || match hay with
      | EmptyString => false
      | String _ r => strIncludes needle r
      end)%bool.

(** A property of the database schema; only its [type] is read. *)
Record Property : Type := mkProperty { p_type : string }.

(** [db_properties] lists [Object.entries(database.properties)] in order,
    and is [None] when [database.properties] is falsy. *)
Record Database : Type := mkDatabase {
  db_properties : option (list (string * Property))
}.

Record RelationStatus : Type := mkStatus {
  hasParentRelation : bool;
  hasSubItemRelation : bool;
  hasDependencyRelation : bool;
  parentRelationName : option string;
  subItemRelationName : option string;
  dependencyRelationName : option string
}.

Definition isRelation (prop : Property) : bool := String.eqb (p_type prop) "relation".

(** The body of [for (const [name, prop] of Object.entries(properties))]. *)
Definition checkProperty (status : RelationStatus) (entry : string * Property)
  : RelationStatus :=
  let '(name, prop) := entry in
  if isRelation prop then
    let nameLower := toLowerCase name in
    if strIncludes "parent" nameLower then
      mkStatus true (hasSubItemRelation status) (hasDependencyRelation status)
               (Some name) (subItemRelationName status) (dependencyRelationName status)
    else if strIncludes "sub" nameLower then
      mkStatus (hasParentRelation status) true (hasDependencyRelation status)
               (parentRelationName status) (Some name) (dependencyRelationName status)
    else if strIncludes "dependenc" nameLower then
      mkStatus (hasParentRelation status) (hasSubItemRelation status) true
               (parentRelationName status) (subItemRelationName status) (Some name)
    else status
  else status.

Definition checkRelationProperties (database : Database) : RelationStatus :=
  let properties := match db_properties database with Some ps => ps | None => [] end in
  fold_left checkProperty properties (mkStatus false false false None None None).

(** The three classes of names the amended statement speaks of. *)
Definition namesParent (name : string) : bool :=
  strIncludes "parent" (toLowerCase name).
Definition namesSubItem (name : string) : bool :=
  (negb (strIncludes "parent" (toLowerCase name))
   && strIncludes "sub" (toLowerCase name))%bool.
Definition namesDependency (name : string) : bool :=
  (negb (strIncludes "parent" (toLowerCase name))
   && negb (strIncludes "sub" (toLowerCase name))
   && strIncludes "dependenc" (toLowerCase name))%bool.

(** Some relation-typed property of the schema has a name in the class. *)
Definition someRelation (class : string -> bool) (database : Database) : Prop :=
  exists name prop properties,
    db_properties database = Some properties
    /\ In (name, prop) properties
    /\ p_type prop = "relation"
    /\ class name = true.

(** The name of the last relation-typed property in the class, if any. *)
Fixpoint lastRelationIn (class : string -> bool) (properties : list (string * Property))
  : option string :=
  match properties with
  | [] => None
  | (name, prop) :: rest =>
      match lastRelationIn class rest with
      | Some later => Some later
      | None => if (isRelation prop && class name)%bool then Some name else None
      end
  end.

Definition lastRelation (class : string -> bool) (database : Database) : option string :=
  match db_properties database with
  | Some properties => lastRelationIn class properties
  | None => None
  end.

(** The schema restricted to its relation-typed properties. *)
Definition relationsOnly (database : Database) : Database :=
  mkDatabase (option_map (List.filter (fun entry => isRelation (snd entry)))
                         (db_properties database)).

Definition existsRelation (class : string -> bool) (properties : list (string * Property))
  : bool :=
  existsb (fun entry => (isRelation (snd entry) && class (fst entry))%bool) properties.

Lemma fold_checkProperty properties : forall init,
  let status := fold_left checkProperty properties init in
  hasParentRelation status
    = (existsRelation namesParent properties || hasParentRelation init)%bool
  /\ hasSubItemRelation status
    = (existsRelation namesSubItem properties || hasSubItemRelation init)%bool
  /\ hasDependencyRelation status
    = (existsRelation namesDependency properties || hasDependencyRelation init)%bool
  /\ parentRelationName status
    = match lastRelationIn namesParent properties with
      | Some name => Some name
      | None => parentRelationName init
      end
  /\ subItemRelationName status
    = match lastRelationIn namesSubItem properties with
      | Some name => Some name
      | None => subItemRelationName init
      end
  /\ dependencyRelationName status
    = match lastRelationIn namesDependency properties with
      | Some name => Some name
      | None => dependencyRelationName init
      end.
Proof.
  induction properties as [|[name prop] rest IH]; intros init.
  - simpl. repeat split; reflexivity.
  - cbn [fold_left].
    destruct (IH (checkProperty init (name, prop))) as (P & S & D & PN & SN & DN).
    cbv zeta. rewrite P, S, D, PN, SN, DN. clear IH P S D PN SN DN.
    unfold existsRelation; cbn [existsb lastRelationIn fst snd].
    fold (existsRelation namesParent rest) (existsRelation namesSubItem rest)
         (existsRelation namesDependency rest).
    unfold checkProperty, namesParent, namesSubItem, namesDependency.
    destruct (isRelation prop);
      destruct (strIncludes "parent" (toLowerCase name));
      destruct (strIncludes "sub" (toLowerCase name));
      destruct (strIncludes "dependenc" (toLowerCase name));
      cbn [andb negb orb hasParentRelation hasSubItemRelation hasDependencyRelation
           parentRelationName subItemRelationName dependencyRelationName];
      destruct (existsRelation _ rest), (existsRelation _ rest), (existsRelation _ rest);
      destruct (lastRelationIn _ rest), (lastRelationIn _ rest), (lastRelationIn _ rest);
      cbn [orb]; repeat split; reflexivity.
Qed.

Lemma existsRelation_someRelation class properties :
  existsRelation class properties = true
  <-> someRelation class (mkDatabase (Some properties)).
Proof.
  unfold existsRelation, someRelation. rewrite existsb_exists. simpl. split.
  - intros [[name prop] [Hin Hc]]. simpl in Hc.
    apply andb_prop in Hc. destruct Hc as [Hrel Hc].
    apply String.eqb_eq in Hrel. exists name, prop, properties. auto.
  - intros (name & prop & ps & Hps & Hin & Hrel & Hc). inversion Hps; subst ps.
    exists (name, prop). split; auto. simpl. rewrite Hc.
    unfold isRelation. rewrite Hrel. reflexivity.
Qed.

Lemma fold_checkProperty_relations properties : forall init,
  fold_left checkProperty
            (List.filter (fun entry => isRelation (snd entry)) properties) init
  = fold_left checkProperty properties init.
Proof.
  induction properties as [|[name prop] rest IH]; intros init; simpl; auto.
  destruct (isRelation prop) eqn:E; simpl; rewrite ?E; auto.
Qed.

(** C9 as stated fails: a relation named "Parent Subtask" contains "sub",
    yet it is counted as the parent relation only. *)
Lemma sub_item_flag_not_exact :
  ~ (forall database,
        hasSubItemRelation (checkRelationProperties database) = true
        <-> someRelation (fun name => strIncludes "sub" (toLowerCase name)) database).
Proof.
  intros H.
  specialize (H (mkDatabase (Some [("Parent Subtask", mkProperty "relation")]))).
  destruct H as [_ H].
  assert (Hf : hasSubItemRelation
                 (checkRelationProperties
                    (mkDatabase (Some [("Parent Subtask", mkProperty "relation")])))
               = false) by reflexivity.
  rewrite H in Hf; [discriminate|].
  exists "Parent Subtask", (mkProperty "relation"),
         [("Parent Subtask", mkProperty "relation")].
  repeat split; simpl; auto.
Qed.

(** C9 (capability detection), amended.  Every relation-typed property
    counts for one relation only, the first of parent, sub-item and
    dependency whose keyword its lower-cased name contains.  Each flag is
    true exactly when some relation-typed property counts for it, each
    reported name is the exact name of the last such property in schema
    order (null when there is none), and properties of another type change
    nothing. *)
Theorem checkRelationProperties_classifies (database : Database) :
  let status := checkRelationProperties database in
  (hasParentRelation status = true <-> someRelation namesParent database)
  /\ (hasSubItemRelation status = true <-> someRelation namesSubItem database)
  /\ (hasDependencyRelation status = true <-> someRelation namesDependency database)
  /\ parentRelationName status = lastRelation namesParent database
  /\ subItemRelationName status = lastRelation namesSubItem database
  /\ dependencyRelationName status = lastRelation namesDependency database
  /\ checkRelationProperties (relationsOnly database) = status.
Proof.
  destruct database as [[properties|]].
  - unfold checkRelationProperties, lastRelation, relationsOnly. cbn [db_properties option_map].
    destruct (fold_checkProperty properties (mkStatus false false false None None None))
      as (P & S & D & PN & SN & DN).
    cbv zeta in *. cbn [hasParentRelation hasSubItemRelation hasDependencyRelation
                        parentRelationName subItemRelationName dependencyRelationName] in *.
    rewrite P, S, D, PN, SN, DN, !orb_false_r, !existsRelation_someRelation.
    repeat split; try tauto.
    + now destruct (lastRelationIn namesParent properties).
    + now destruct (lastRelationIn namesSubItem properties).
    + now destruct (lastRelationIn namesDependency properties).
    + apply fold_checkProperty_relations.
  - unfold checkRelationProperties, lastRelation, relationsOnly, someRelation. simpl.
    repeat split; try discriminate;
      intros (name & prop & ps & Hps & _); discriminate.
Qed.

End Hierarchy.

(** ** Rich-text chunking ([splitRichTextByWord]) *)

Module RichText.

Local Open Scope Z_scope.

(** A string is its sequence of UTF-16 code units, one character each;
    [String.length] is [content.length]. *)
Definition len (s : string) : Z := Z.of_nat (String.length s).

(** [s[i]], [None] for [undefined]. *)
Definition charAt (s : string) (i : Z) : option ascii :=
  if i <? 0 then None else String.get (Z.to_nat i) s.

Definition isSpaceAt (s : string) (i : Z) : bool :=
  match charAt s i with
  | Some c => Ascii.eqb c " "%char
  | None => false
  end.

(** The greatest index at most [n] that holds a space, or -1. *)
Fixpoint lastSpaceFrom (s : string) (n : nat) : Z :=
  if isSpaceAt s (Z.of_nat n) then Z.of_nat n
  else match n with
       | O => -1
       | S m => lastSpaceFrom s m
       end.

(** [s.lastIndexOf(' ', fromIndex)]: a negative [fromIndex] counts as 0. *)
Definition lastIndexOfSpace (s : string) (fromIndex : Z) : Z :=
  lastSpaceFrom s (Z.to_nat (Z.max fromIndex 0)).

(** [s.slice(a, b)]: negative indices count from the end, all are clamped
    to the string. *)
Definition slice (s : string) (a b : Z) : string :=
  let clamp i := if i <? 0 then Z.max (len s + i) 0 else Z.min i (len s) in
  let from := clamp a in
  let to := clamp b in
  String.substring (Z.to_nat from) (Z.to_nat (to - from)) s.

(** [{ text: { content } }] *)
Record RichTextItem : Type := mkRichText { text_content : string }.

Section Splitter.
(** [beyond lastSpace start chunkSize] is the test
    [lastSpace > start + chunkSize * 0.7].  The product is a
    floating-point number; all that is used of the test below is stated
    as [beyond_start]. *)
Variable beyond : Z -> Z -> Z -> bool.

(** The [while (start < content.length)] loop, one iteration per unit of
    fuel; [None] when the fuel runs out before the loop ends. *)
Fixpoint splitLoop (fuel : nat) (content : string) (chunkSize : Z) (start : Z)
  : option (list RichTextItem) :=
  if negb (start <? len content) then Some []
  else
    match fuel with
    | O => None
    | S fuel =>
        let end_ := Z.min (start + chunkSize) (len content) in
        let end_ :=
          if end_ <? len content then
            let lastSpace := lastIndexOfSpace content end_ in
            if beyond lastSpace start chunkSize then lastSpace else end_
          else end_ in
        let item := mkRichText (slice content start end_) in
        let start := end_ in
        let start := if isSpaceAt content start then start + 1 else start in
        match splitLoop fuel content chunkSize start with
        | Some result => Some (item :: result)
        | None => None
        end
    end.

(** [content] is [None] for [undefined] or [null]. *)
Definition splitRichTextByWordWith (content : option string) (chunkSize : Z)
  : option (list RichTextItem) :=
  match content with
  | None => Some []
  | Some EmptyString => Some []
  | Some content => splitLoop (String.length content) content chunkSize 0
  end.
End Splitter.

(** The test over the rationals: [10 * lastSpace > 10 * start + 7 * chunkSize]. *)
Definition beyondSevenTenths (lastSpace start chunkSize : Z) : bool :=
  10 * start + 7 * chunkSize <? 10 * lastSpace.

Definition splitRichTextByWord (content : option string) (chunkSize : Z)
  : option (list RichTextItem) :=
  splitRichTextByWordWith beyondSevenTenths content chunkSize.

Definition defaultChunkSize : Z := 2000.

Lemma lastSpaceFrom_le s n : lastSpaceFrom s n <= Z.of_nat n.
Proof.
  induction n as [|n IH]; simpl lastSpaceFrom.
  - destruct (isSpaceAt s (Z.of_nat 0)); simpl; lia.
  - destruct (isSpaceAt s (Z.of_nat (S n))); lia.
Qed.

Lemma lastIndexOfSpace_le s i : 0 <= i -> lastIndexOfSpace s i <= i.
Proof.
  intros Hi. unfold lastIndexOfSpace.
  pose proof (lastSpaceFrom_le s (Z.to_nat (Z.max i 0))). lia.
Qed.

Lemma substring_length_le s : forall n m,
  (String.length (String.substring n m s) <= m)%nat.
Proof.
  induction s as [|c s IH]; intros n m.
  - destruct n, m; simpl; lia.
  - destruct n as [|n].
    + destruct m as [|m]; simpl; [lia|]. specialize (IH 0%nat m). lia.
    + simpl. apply IH.
Qed.

Lemma slice_length_le s a b : 0 <= a -> a <= b -> len (slice s a b) <= b - a.
Proof.
  intros Ha Hab. unfold slice, len.
  destruct (a <? 0) eqn:Ea; [apply Z.ltb_lt in Ea; lia|].
  destruct (b <? 0) eqn:Eb; [apply Z.ltb_lt in Eb; lia|].
  pose proof (substring_length_le s
    (Z.to_nat (Z.min a (Z.of_nat (String.length s))))
    (Z.to_nat (Z.min b (Z.of_nat (String.length s))
               - Z.min a (Z.of_nat (String.length s))))).
  lia.
Qed.

Section SplitterFacts.
Variable beyond : Z -> Z -> Z -> bool.
Hypothesis beyond_start :
  forall lastSpace start chunkSize,
    0 < chunkSize -> beyond lastSpace start chunkSize = true -> start < lastSpace.

Lemma splitLoop_bounded content chunkSize (Hpos : 0 < chunkSize) :
  forall fuel start,
    0 <= start ->
    len content - start <= Z.of_nat fuel ->
    exists result,
      splitLoop beyond fuel content chunkSize start = Some result
      /\ Forall (fun item => len (text_content item) <= chunkSize) result.
Proof.
  induction fuel as [|fuel IH]; intros start Hs Hfuel.
  - simpl. destruct (start <? len content) eqn:E.
    + apply Z.ltb_lt in E. lia.
    + exists []. split; [reflexivity|constructor].
  - cbn [splitLoop]. destruct (start <? len content) eqn:E; cbn [negb].
    2:{ exists []. split; [reflexivity|constructor]. }
    apply Z.ltb_lt in E.
    set (end0 := Z.min (start + chunkSize) (len content)).
    set (end1 := if end0 <? len content
                 then if beyond (lastIndexOfSpace content end0) start chunkSize
                      then lastIndexOfSpace content end0 else end0
                 else end0).
    assert (Hend : start < end1 /\ end1 <= start + chunkSize /\ end1 <= len content).
    { unfold end1. destruct (end0 <? len content) eqn:E0.
      - destruct (beyond (lastIndexOfSpace content end0) start chunkSize) eqn:Eb.
        + apply beyond_start in Eb; auto.
          pose proof (lastIndexOfSpace_le content end0). unfold end0 in *. lia.
        + unfold end0. lia.
      - unfold end0. lia. }
    cbv zeta. fold end0. fold end1.
    destruct (IH (if isSpaceAt content end1 then end1 + 1 else end1))
      as (result & Hres & Hall).
    + destruct (isSpaceAt content end1); lia.
    + destruct (isSpaceAt content end1); lia.
    + rewrite Hres. eexists. split; [reflexivity|].
      constructor; auto. simpl.
      pose proof (slice_length_le content start end1). lia.
Qed.

Lemma splitRichTextByWordWith_bounded content chunkSize :
  0 < chunkSize ->
  exists result,
    splitRichTextByWordWith beyond content chunkSize = Some result
    /\ Forall (fun item => len (text_content item) <= chunkSize) result.
Proof.
  intros Hpos. destruct content as [[|c s]|].
  - exists []. split; [reflexivity|constructor].
  - unfold splitRichTextByWordWith.
    apply splitLoop_bounded; auto; unfold len; lia.
  - exists []. split; [reflexivity|constructor].
Qed.
End SplitterFacts.

Lemma beyondSevenTenths_start lastSpace start chunkSize :
  0 < chunkSize -> beyondSevenTenths lastSpace start chunkSize = true -> start < lastSpace.
Proof. unfold beyondSevenTenths. intros Hpos H. apply Z.ltb_lt in H. lia. Qed.

(** C10 (chunking terminates and respects the limit).  For every content
    and every positive [chunkSize] the loop ends and returns chunks whose
    text is at most [chunkSize] long; absent and empty content give the
    empty list.  With the default size no chunk is longer than 2000. *)
Theorem splitRichTextByWord_bounded (content : option string) (chunkSize : Z) :
  0 < chunkSize ->
  (exists result,
      splitRichTextByWord content chunkSize = Some result
      /\ Forall (fun item => len (text_content item) <= chunkSize) result)
  /\ (exists result,
        splitRichTextByWord content defaultChunkSize = Some result
        /\ Forall (fun item => len (text_content item) <= 2000) result)
  /\ splitRichTextByWord None chunkSize = Some []
  /\ splitRichTextByWord (Some "") chunkSize = Some [].
Proof.
  intros Hpos. unfold splitRichTextByWord.
  split; [|split; [|split; reflexivity]].
  - apply (splitRichTextByWordWith_bounded _ beyondSevenTenths_start). exact Hpos.
  - apply (splitRichTextByWordWith_bounded _ beyondSevenTenths_start).
    unfold defaultChunkSize. lia.
Qed.

Lemma splitRichTextByWord_bounded_witness :
  (exists result,
      splitRichTextByWord (Some "alpha beta gamma delta") 10 = Some result
      /\ Forall (fun item => len (text_content item) <= 10) result)
  /\ (exists result,
        splitRichTextByWord (Some "alpha beta gamma delta") defaultChunkSize = Some result
        /\ Forall (fun item => len (text_content item) <= 2000) result)
  /\ splitRichTextByWord None 10 = Some []
  /\ splitRichTextByWord (Some "") 10 = Some [].
Proof. apply (splitRichTextByWord_bounded (Some "alpha beta gamma delta") 10). lia. Defined.

(** A run with chunks of ten: the first cut falls on the space at index 10;
    the second chunk has its last space at index 16, not beyond
    [11 + 7], so it is cut at its full length. *)
Example splitRichTextByWord_run :
  splitRichTextByWord (Some "alpha beta gamma delta") 10
  = Some [mkRichText "alpha beta"; mkRichText "gamma delt"; mkRichText "a"].
Proof. reflexivity. Qed.

(** *** Further facts on the chunking *)

Lemma substring_none n s : String.substring n 0 s = "".
Proof.
  revert n. induction s as [|c s IH]; intros [|n]; simpl; auto.
Qed.

Lemma substring_all s : String.substring 0 (String.length s) s = s.
Proof. induction s as [|c s IH]; simpl; auto. now rewrite IH. Qed.

Lemma append_cons c x y : (String c x ++ y)%string = String c (x ++ y)%string.
Proof. reflexivity. Qed.

Lemma substring_add s : forall n m1 m2,
  String.substring n (m1 + m2) s
  = (String.substring n m1 s ++ String.substring (n + m1) m2 s)%string.
Proof.
  induction s as [|c s IH]; intros n m1 m2.
  - destruct n, m1, m2; reflexivity.
  - destruct n as [|n].
    + destruct m1 as [|m1]; [reflexivity|].
      simpl. rewrite append_cons. f_equal. apply (IH 0%nat m1 m2).
    + simpl. apply IH.
Qed.

Lemma substring_head s : forall n k c,
  String.get n s = Some c ->
  String.substring n (S k) s = String c (String.substring (S n) k s).
Proof.
  induction s as [|d s IH]; intros n k c Hget.
  - destruct n; discriminate.
  - destruct n as [|n]; cbn in *.
    + injection Hget as ->. reflexivity.
    + now apply IH.
Qed.

Lemma get_in_range s : forall n c, String.get n s = Some c -> (n < String.length s)%nat.
Proof.
  induction s as [|d s IH]; intros [|n] c H; simpl in *; try discriminate; try lia.
  apply IH in H. lia.
Qed.

Lemma substring_length_exact s : forall n m,
  (n + m <= String.length s)%nat -> String.length (String.substring n m s) = m.
Proof.
  induction s as [|c s IH]; intros n m H; simpl in H.
  - assert (n = 0%nat) by lia. assert (m = 0%nat) by lia. now subst.
  - destruct n as [|n].
    + destruct m as [|m]; [reflexivity|]. cbn. f_equal. apply IH. lia.
    + cbn. apply IH. lia.
Qed.

Lemma slice_in_range s a b :
  0 <= a -> a <= b -> b <= len s ->
  slice s a b = String.substring (Z.to_nat a) (Z.to_nat b - Z.to_nat a) s.
Proof.
  intros Ha Hab Hb. unfold slice.
  destruct (a <? 0) eqn:Ea; [apply Z.ltb_lt in Ea; lia|].
  destruct (b <? 0) eqn:Eb; [apply Z.ltb_lt in Eb; lia|].
  rewrite !Z.min_l by lia. f_equal. lia.
Qed.

(** What is left of the content from [start] on. *)
Definition rest (s : string) (start : Z) : string :=
  String.substring (Z.to_nat start) (String.length s - Z.to_nat start) s.

(** The chunks put back together, with a space after a chunk where [gaps]
    says so. *)
Fixpoint rejoin (items : list RichTextItem) (gaps : list bool) : string :=
  match items, gaps with
  | item :: items, gap :: gaps =>
      (text_content item ++ (if gap then " " else "") ++ rejoin items gaps)%string
  | _, _ => ""
  end.

Lemma rest_split s a b :
  0 <= a -> a <= b -> b <= len s -> rest s a = (slice s a b ++ rest s b)%string.
Proof.
  intros Ha Hab Hb. unfold rest. rewrite slice_in_range by assumption.
  unfold len in Hb.
  replace (String.length s - Z.to_nat a)%nat
    with ((Z.to_nat b - Z.to_nat a) + (String.length s - Z.to_nat b))%nat by lia.
  rewrite substring_add. f_equal. f_equal. lia.
Qed.

Lemma rest_space s b :
  0 <= b -> isSpaceAt s b = true -> rest s b = String " " (rest s (b + 1)).
Proof.
  intros Hb Hsp. unfold isSpaceAt, charAt in Hsp.
  destruct (b <? 0) eqn:Eb; [discriminate|].
  destruct (String.get (Z.to_nat b) s) as [c|] eqn:Hget; [|discriminate].
  apply Ascii.eqb_eq in Hsp. subst c.
  pose proof (get_in_range _ _ _ Hget) as Hlt.
  unfold rest.
  replace (String.length s - Z.to_nat b)%nat
    with (S (String.length s - Z.to_nat (b + 1)))%nat by lia.
  rewrite (substring_head s _ _ _ Hget). f_equal. f_equal. lia.
Qed.

Lemma splitLoop_done (beyond : Z -> Z -> Z -> bool) fuel content chunkSize start :
  len content <= start -> splitLoop beyond fuel content chunkSize start = Some [].
Proof.
  intros H. destruct fuel; cbn [splitLoop];
    (destruct (start <? len content) eqn:E; [apply Z.ltb_lt in E; lia|reflexivity]).
Qed.

Section SplitterContent.
Variable beyond : Z -> Z -> Z -> bool.
Hypothesis beyond_start :
  forall lastSpace start chunkSize,
    0 < chunkSize -> beyond lastSpace start chunkSize = true -> start < lastSpace.

Lemma splitLoop_rejoin content chunkSize (Hpos : 0 < chunkSize) :
  forall fuel start,
    0 <= start ->
    len content - start <= Z.of_nat fuel ->
    exists result gaps,
      splitLoop beyond fuel content chunkSize start = Some result
      /\ List.length gaps = List.length result
      /\ rejoin result gaps = rest content start
      /\ Forall (fun item => 0 < len (text_content item)) result.
Proof.
  induction fuel as [|fuel IH]; intros start Hs Hfuel.
  - exists [], []. rewrite splitLoop_done by lia. repeat split; auto.
    unfold rest. unfold len in Hfuel.
    replace (String.length content - Z.to_nat start)%nat with 0%nat by lia.
    now rewrite substring_none.
  - destruct (Z.le_gt_cases (len content) start) as [Hge|Hlt].
    { exists [], []. rewrite splitLoop_done by lia. repeat split; auto.
      unfold rest. unfold len in Hge.
      replace (String.length content - Z.to_nat start)%nat with 0%nat by lia.
      now rewrite substring_none. }
    cbn [splitLoop]. rewrite (proj2 (Z.ltb_lt _ _)) by lia. cbn [negb].
    set (end0 := Z.min (start + chunkSize) (len content)).
    set (end1 := if end0 <? len content
                 then if beyond (lastIndexOfSpace content end0) start chunkSize
                      then lastIndexOfSpace content end0 else end0
                 else end0).
    assert (Hend : start < end1 /\ end1 <= len content).
    { unfold end1. destruct (end0 <? len content) eqn:E0.
      - destruct (beyond (lastIndexOfSpace content end0) start chunkSize) eqn:Eb.
        + apply beyond_start in Eb; auto.
          pose proof (lastIndexOfSpace_le content end0). unfold end0 in *. lia.
        + unfold end0. lia.
      - unfold end0. lia. }
    cbv zeta. fold end0. fold end1.
    destruct (IH (if isSpaceAt content end1 then end1 + 1 else end1))
      as (result & gaps & Hres & Hlen & Hjoin & Hne).
    + destruct (isSpaceAt content end1); lia.
    + destruct (isSpaceAt content end1); lia.
    + rewrite Hres.
      exists (mkRichText (slice content start end1) :: result),
             (isSpaceAt content end1 :: gaps).
      split; [reflexivity|]. split; [cbn; now rewrite Hlen|]. split.
      * cbn [rejoin text_content]. rewrite Hjoin.
        rewrite (rest_split content start end1) by lia. f_equal.
        destruct (isSpaceAt content end1) eqn:Hsp; [|reflexivity].
        rewrite (rest_space content end1) by (auto; lia). reflexivity.
      * constructor; [|exact Hne]. cbn [text_content].
        rewrite slice_in_range by lia. unfold len.
        rewrite substring_length_exact; unfold len in *; lia.
Qed.
End SplitterContent.

(** X22.  Nothing but single spaces is lost.  For a positive [chunkSize] the
    chunks are non-empty and, written one after the other with a single
    space after some of them, give back the content: a cut drops at most
    the one space it falls on. *)
Theorem splitRichTextByWord_rejoin (content : string) (chunkSize : Z) :
  0 < chunkSize ->
  exists result gaps,
    splitRichTextByWord (Some content) chunkSize = Some result
    /\ List.length gaps = List.length result
    /\ rejoin result gaps = content
    /\ Forall (fun item => 0 < len (text_content item)) result.
Proof.
  intros Hpos. unfold splitRichTextByWord, splitRichTextByWordWith.
  destruct content as [|c s] eqn:Hc.
  - exists [], []. repeat split; auto.
  - rewrite <- Hc.
    destruct (splitLoop_rejoin beyondSevenTenths beyondSevenTenths_start content
                chunkSize Hpos (String.length content) 0)
      as (result & gaps & Hres & Hlen & Hjoin & Hne); [lia|unfold len; lia|].
    exists result, gaps. repeat split; auto.
    rewrite Hjoin. unfold rest. cbn [Z.to_nat]. rewrite Nat.sub_0_r.
    apply substring_all.
Qed.

Lemma splitRichTextByWord_rejoin_witness :
  exists result gaps,
    splitRichTextByWord (Some "alpha beta gamma delta") 10 = Some result
    /\ List.length gaps = List.length result
    /\ rejoin result gaps = "alpha beta gamma delta"
    /\ Forall (fun item => 0 < len (text_content item)) result.
Proof. apply (splitRichTextByWord_rejoin "alpha beta gamma delta" 10). lia. Defined.

(** X23.  Short content is not cut: content that is not empty and no longer than
    [chunkSize] comes back as one chunk, itself. *)
Theorem splitRichTextByWord_short (content : string) (chunkSize : Z) :
  0 < len content ->
  len content <= chunkSize ->
  splitRichTextByWord (Some content) chunkSize = Some [mkRichText content].
Proof.
  intros Hne Hle. unfold splitRichTextByWord, splitRichTextByWordWith.
  destruct content as [|c s]; [exfalso; vm_compute in Hne; discriminate|].
  change (String.length (String c s)) with (S (String.length s)).
  set (content := String c s) in *.
  cbn [splitLoop]. rewrite (proj2 (Z.ltb_lt 0 (len content))) by lia. cbn [negb].
  rewrite Z.add_0_l, Z.min_r by lia. rewrite Z.ltb_irrefl.
  assert (Hsp : isSpaceAt content (len content) = false).
  { unfold isSpaceAt, charAt.
    destruct (len content <? 0) eqn:E; [reflexivity|].
    destruct (String.get (Z.to_nat (len content)) content) as [ch|] eqn:Hget;
      [|reflexivity].
    apply get_in_range in Hget. unfold len in Hget. lia. }
  cbv zeta. rewrite Hsp, splitLoop_done by lia.
  rewrite slice_in_range by lia. cbn [Z.to_nat]. rewrite Nat.sub_0_r.
  unfold len. rewrite Nat2Z.id, substring_all. reflexivity.
Qed.

Lemma splitRichTextByWord_short_witness :
  splitRichTextByWord (Some "Write the tests") defaultChunkSize
  = Some [mkRichText "Write the tests"].
Proof.
  apply (splitRichTextByWord_short "Write the tests" defaultChunkSize);
    [vm_compute; reflexivity|vm_compute; discriminate].
Defined.

End RichText.

(** ** Transaction manager ([TransactionManager] of notion-base-command.js) *)

Module Transaction.

Section Manager.
Context {World Result Error : Type}.

(** [new Error(message)] *)
Variable errorOf : string -> Error.

(** An operation as the manager sees it: [rollback] may be missing. *)
Record TxOperation : Type := mkTxOperation {
  tx_name : string;
  tx_execute : World -> (Result + Error) * World;
  tx_rollback : option (Result -> World -> option Error * World)
}.

(** The fields of the manager.  Each entry of [operations] also carries a
    [timestamp] that nothing reads; it is left out. *)
Record TransactionManager : Type := mkManager {
  tm_operations : list (TxOperation * Result);
  tm_rollbackInProgress : bool
}.

(** [new TransactionManager(commandName)] *)
Definition newManager : TransactionManager := mkManager [] false.

Inductive TxEvent : Type :=
| TxExecute (op : TxOperation)
| TxRollback (op : TxOperation) (result : Result).

(** [rollback()]: [None] for the early return while a rollback is in
    progress, else the list [rollbackErrors].  The operations do not call
    back into the manager, so the flag is back to [false] when the loop is
    over. *)
Definition tmRollback (m : TransactionManager) (w : World)
  : option (list (string * Error)) * TransactionManager * World * list TxEvent :=
  if tm_rollbackInProgress m then (None, m, w, [])
  else
    let '(w, events, rollbackErrors) :=
      fold_left
        (fun '(w, events, rollbackErrors) '(operation, result) =>
           match tx_rollback operation with
           | Some rollback =>
               match rollback result w with
               | (None, w) => (w, events ++ [TxRollback operation result], rollbackErrors)
               | (Some rollbackError, w) =>
                   (w, events ++ [TxRollback operation result],
                    rollbackErrors ++ [(tx_name operation, rollbackError)])
               end
           | None => (w, events, rollbackErrors)
           end)
        (rev (tm_operations m)) (w, [], []) in
    (Some rollbackErrors, mkManager [] false, w, events).

(** [executeOperation(operation)] *)
Definition executeOperation (m : TransactionManager) (operation : TxOperation) (w : World)
  : (Result + Error) * TransactionManager * World * list TxEvent :=
  if tm_rollbackInProgress m then
    (inr (errorOf "Cannot execute operations during rollback"), m, w, [])
  else
    match tx_execute operation w with
    | (inl result, w) =>
        (inl result,
         mkManager (tm_operations m ++ [(operation, result)]) (tm_rollbackInProgress m),
         w, [TxExecute operation])
    | (inr error, w) =>
        let '(_, m, w, events) := tmRollback m w in
        (inr error, m, w, TxExecute operation :: events)
    end.

(** [commit()] *)
Definition commit (m : TransactionManager) : TransactionManager :=
  mkManager [] (tm_rollbackInProgress m).

(** Whether the operation of a recorded entry has a [rollback] method. *)
Definition hasRollback (entry : TxOperation * Result) : bool :=
  match tx_rollback (fst entry) with Some _ => true | None => false end.

(** The world once the recorded operations, given in the order of their
    execution, are rolled back from [w]: the later ones first, every one
    that has a [rollback] method with its own result. *)
Fixpoint rolledBack (recorded : list (TxOperation * Result)) (w : World) : World :=
  match recorded with
  | [] => w
  | (operation, result) :: later =>
      match tx_rollback operation with
      | Some rollback => snd (rollback result (rolledBack later w))
      | None => rolledBack later w
      end
  end.

Lemma rolledBack_snoc (recorded : list (TxOperation * Result)) op r w :
  rolledBack (recorded ++ [(op, r)]) w
  = rolledBack recorded
      (match tx_rollback op with Some rollback => snd (rollback r w) | None => w end).
Proof.
  induction recorded as [|[o res] recorded IH]; cbn; [reflexivity|]. now rewrite IH.
Qed.

Lemma tmRollback_fold_world (l : list (TxOperation * Result)) :
  forall w events errors,
    let r := fold_left
        (fun '(w, events, rollbackErrors) '(operation, result) =>
           match tx_rollback operation with
           | Some rollback =>
               match rollback result w with
               | (None, w) => (w, events ++ [TxRollback operation result], rollbackErrors)
               | (Some rollbackError, w) =>
                   (w, events ++ [TxRollback operation result],
                    rollbackErrors ++ [(tx_name operation, rollbackError)])
               end
           | None => (w, events, rollbackErrors)
           end) l (w, events, errors) in
    fst (fst r) = rolledBack (rev l) w
    /\ snd (fst r)
       = events ++ List.map (fun '(operation, result) => TxRollback operation result)
                            (List.filter hasRollback l).
Proof.
  induction l as [|[op res] l IH]; intros w events errors; cbn [fold_left rev].
  - cbv zeta. cbn. now rewrite app_nil_r.
  - rewrite rolledBack_snoc. unfold hasRollback at 1. cbn [List.filter fst].
    destruct (tx_rollback op) as [rb|].
    + destruct (rb res w) as [[e|] w'].
      * specialize (IH w' (events ++ [TxRollback op res]) (errors ++ [(tx_name op, e)])).
        cbv zeta in *. destruct IH as [-> ->]. cbn. now rewrite <- app_assoc.
      * specialize (IH w' (events ++ [TxRollback op res]) errors).
        cbv zeta in *. destruct IH as [-> ->]. cbn. now rewrite <- app_assoc.
    + apply IH.
Qed.

(** X12.  Failure inside a transaction.  When [execute] of an operation throws,
    [executeOperation] calls [rollback] once on every operation executed
    since the manager was created or committed that has a [rollback]
    method, last executed first and each with its own result, leaves the
    world those rollbacks leave, forgets the operations, and throws the
    same error; the rollback the command then runs in its own [catch]
    calls nothing. *)
Theorem executeOperation_failure (m : TransactionManager) (operation : TxOperation)
    (w w1 : World) (error : Error) :
  tm_rollbackInProgress m = false ->
  tx_execute operation w = (inr error, w1) ->
  executeOperation m operation w
  = (inr error, mkManager [] false, rolledBack (tm_operations m) w1,
     TxExecute operation
     :: List.map (fun '(operation, result) => TxRollback operation result)
                 (rev (List.filter hasRollback (tm_operations m))))
  /\ tmRollback (mkManager [] false) (rolledBack (tm_operations m) w1)
     = (Some [], mkManager [] false, rolledBack (tm_operations m) w1, []).
Proof.
  intros Hflag Hex. split; [|reflexivity].
  unfold executeOperation, tmRollback. rewrite Hflag, Hex.
  pose proof (tmRollback_fold_world (rev (tm_operations m)) w1 [] []) as Hfold.
  cbv zeta in Hfold.
  destruct (fold_left _ (rev (tm_operations m)) (w1, [], [])) as [[w2 events] errors].
  cbn [fst snd] in Hfold. destruct Hfold as [-> ->].
  rewrite rev_involutive, filter_rev. reflexivity.
Qed.

(** Commit.  After [commit()] nothing executed before can be rolled back:
    a rollback calls no operation, whatever was executed. *)
Theorem rollback_after_commit (m : TransactionManager) (w : World) :
  tm_rollbackInProgress m = false ->
  tmRollback (commit m) w = (Some [], newManager, w, []).
Proof. intros Hflag. unfold tmRollback, commit. cbn. now rewrite Hflag. Qed.
End Manager.

Arguments TxOperation : clear implicits.
Arguments TransactionManager : clear implicits.
Arguments TxEvent : clear implicits.

(** Two operations on a counter: one adds 1 and can be undone, one throws. *)
Definition bump : TxOperation nat nat string :=
  mkTxOperation "bump" (fun w => (inl w, S w)) (Some (fun r _ => (None, r))).
Definition crash : TxOperation nat nat string :=
  mkTxOperation "crash" (fun w => (inr "crashed", w)) None.

Lemma executeOperation_failure_witness :
  executeOperation (fun s => s) (mkManager [(bump, 0%nat); (bump, 1%nat)] false) crash 2%nat
  = (inr "crashed", mkManager [] false, 0%nat,
     [TxExecute crash; TxRollback bump 1%nat; TxRollback bump 0%nat])
  /\ tmRollback (mkManager [] false : TransactionManager nat nat string) 0%nat
     = (Some [], mkManager [] false, 0%nat, []).
Proof.
  apply (executeOperation_failure (fun s => s)
           (mkManager [(bump, 0%nat); (bump, 1%nat)] false) crash 2%nat 2%nat "crashed");
    reflexivity.
Defined.

Lemma rollback_after_commit_witness :
  tmRollback (commit (mkManager [(bump, 0%nat)] false)) 1%nat
  = (Some [], newManager, 1%nat, []).
Proof. apply (rollback_after_commit (mkManager [(bump, 0%nat)] false) 1%nat). reflexivity. Defined.

End Transaction.

(** ** Mapping-file operations ([UpdateMappingOperation], [ClearMappingOperation]) *)

Module MappingFile.

(** The file system as far as these operations use it: the content of every
    file that exists, by path.  Reads and writes are taken to succeed. *)
Abbreviation files := (gmap string string).

(** [fs.existsSync], [fs.readFileSync(_, 'utf8')], [fs.writeFileSync] and
    [fs.unlinkSync]. *)
Definition existsSync (fs : files) (path : string) : bool :=
  match fs !! path with Some _ => true | None => false end.
Definition readFileSync (fs : files) (path : string) : option string := fs !! path.
Definition writeFileSync (fs : files) (path content : string) : files :=
  <[path := content]> fs.
Definition unlinkSync (fs : files) (path : string) : files := delete path fs.

(** The fields of an [UpdateMappingOperation]; [um_content] is the text
    [JSON.stringify({ mapping: newMapping, meta: newMeta }, null, 2)] and
    [um_mappingCount] is [Object.keys(newMapping).length]. *)
Record UpdateMappingOperation : Type := mkUpdateMapping {
  um_mappingFile : string;
  um_content : string;
  um_mappingCount : nat;
  um_originalContent : option string
}.

(** The constructor: [originalContent] is null. *)
Definition newUpdateMapping (mappingFile content : string) (count : nat)
  : UpdateMappingOperation :=
  mkUpdateMapping mappingFile content count None.

(** [execute()]: returns the operation with its backup, the result
    [{ mappingFile, mappingCount }] and the file system. *)
Definition updateExecute (op : UpdateMappingOperation) (fs : files)
  : UpdateMappingOperation * (string * nat) * files :=
  let originalContent :=
    if existsSync fs (um_mappingFile op) then readFileSync fs (um_mappingFile op)
    else um_originalContent op in
  let fs := writeFileSync fs (um_mappingFile op) (um_content op) in
  (mkUpdateMapping (um_mappingFile op) (um_content op) (um_mappingCount op) originalContent,
   (um_mappingFile op, um_mappingCount op), fs).

(** [rollback(result)] *)
Definition updateRollback (op : UpdateMappingOperation) (fs : files) : files :=
  match um_originalContent op with
  | Some originalContent => writeFileSync fs (um_mappingFile op) originalContent
  | None =>
      if existsSync fs (um_mappingFile op) then unlinkSync fs (um_mappingFile op) else fs
  end.

(** The fields of a [ClearMappingOperation]. *)
Record ClearMappingOperation : Type := mkClearMapping {
  cm_mappingFile : string;
  cm_originalContent : option string
}.

Definition newClearMapping (mappingFile : string) : ClearMappingOperation :=
  mkClearMapping mappingFile None.

Section Clear.
(** [JSON.stringify({ mapping: {}, meta: {} }, null, 2)] *)
Variable emptyContent : string.

Definition clearExecute (op : ClearMappingOperation) (fs : files)
  : ClearMappingOperation * (string * bool) * files :=
  let originalContent :=
    if existsSync fs (cm_mappingFile op) then readFileSync fs (cm_mappingFile op)
    else cm_originalContent op in
  let fs := writeFileSync fs (cm_mappingFile op) emptyContent in
  (mkClearMapping (cm_mappingFile op) originalContent, (cm_mappingFile op, true), fs).

Definition clearRollback (op : ClearMappingOperation) (fs : files) : files :=
  match cm_originalContent op with
  | Some originalContent => writeFileSync fs (cm_mappingFile op) originalContent
  | None => fs
  end.

(** X14.  Rollback of a cleared mapping.  When the mapping file existed, rollback
    after [execute] gives back the file system as it was; when it did not
    exist, the file written by [execute] stays, holding the empty
    mapping. *)
Theorem clear_then_rollback (mappingFile : string) (fs : files) :
  let '(op, _, fs1) := clearExecute (newClearMapping mappingFile) fs in
  clearRollback op fs1
  = match fs !! mappingFile with
    | Some _ => fs
    | None => <[mappingFile := emptyContent]> fs
    end.
Proof.
  unfold clearExecute, clearRollback, newClearMapping, existsSync, readFileSync,
    writeFileSync. cbn.
  destruct (fs !! mappingFile) as [c|] eqn:Hc; cbn; [|reflexivity].
  rewrite insert_insert_eq. now apply insert_id.
Qed.
End Clear.

(** X13.  Rollback of an updated mapping restores the file system exactly: the
    previous content when the mapping file existed, no file when it did
    not. *)
Theorem update_then_rollback (mappingFile content : string) (count : nat) (fs : files) :
  let '(op, _, fs1) := updateExecute (newUpdateMapping mappingFile content count) fs in
  fs1 !! mappingFile = Some content /\ updateRollback op fs1 = fs.
Proof.
  unfold updateExecute, updateRollback, newUpdateMapping, existsSync, readFileSync,
    writeFileSync, unlinkSync. cbn.
  split; [apply lookup_insert_eq|].
  destruct (fs !! mappingFile) as [c|] eqn:Hc; cbn.
  - rewrite insert_insert_eq. now apply insert_id.
  - rewrite lookup_insert_eq. rewrite delete_insert_eq. now apply delete_id.
Qed.

(** X15.  A second [execute] of the same operation object keeps a backup of what
    the first one wrote, not of the original file: rollback then leaves the
    new content in place. *)
Theorem update_twice_loses_backup (mappingFile content : string) (count : nat) (fs : files) :
  let '(op1, _, fs1) := updateExecute (newUpdateMapping mappingFile content count) fs in
  let '(op2, _, fs2) := updateExecute op1 fs1 in
  updateRollback op2 fs2 = <[mappingFile := content]> fs.
Proof.
  unfold updateExecute, updateRollback, newUpdateMapping, existsSync, readFileSync,
    writeFileSync. cbn.
  rewrite lookup_insert_eq. cbn. now rewrite !insert_insert_eq.
Qed.

End MappingFile.

(** ** Relation payloads and the remote view
    ([buildHierarchicalRelations], [reconstructHierarchyFromNotion]) *)

Module Relations.
Import JS Flatten Mapping.

(** The [relations] object: property name to the ids of its relation. *)
Abbreviation relations := (gmap string (list string)).

(** A page id read from the mapping, when it is truthy. *)
Definition mappedId (h : store) (mapping : outer) (tag : string) (id : jsval)
  : option string :=
  match getNotionPageId h mapping tag id with
  | Some notionId => if String.eqb notionId "" then None else Some notionId
  | None => None
  end.

Definition buildHierarchicalRelations (task : FlatTask) (tag : string)
           (h : store) (mapping : outer)
           (useDependencyRelations : bool) (dependencyRelationName : string)
  : relations :=
  let relations : relations := ∅ in
  let relations :=
    if truthy (f_parentId task) then
      match mappedId h mapping tag (f_parentId task) with
      | Some parentNotionId => <["Parent item" := [parentNotionId]]> relations
      | None => relations
      end
    else relations in
  match f_dependencies task with
  | Some (dep :: deps) =>
      if useDependencyRelations then
        let dependencyIds := omap (mappedId h mapping tag) (dep :: deps) in
        if (0 <? List.length dependencyIds)%nat
        then <[dependencyRelationName := dependencyIds]> relations
        else relations
      else relations
  | _ => relations
  end.

(** X24.  Relation payloads link mapped pages only.  Every relation in the
    payload is non-empty, and each of its ids is a non-empty page id that
    the mapping holds, under the task's tag, for the task's parent or for
    one of its dependencies; without dependency relations the payload has
    no property but "Parent item". *)
Theorem relations_link_mapped_pages (task : FlatTask) (tag : string)
    (h : store) (mapping : outer) (useDeps : bool) (depName : string) :
  let payload := buildHierarchicalRelations task tag h mapping useDeps depName in
  (forall name ids,
      payload !! name = Some ids ->
      ids <> []
      /\ forall x, In x ids ->
           x <> ""
           /\ (getNotionPageId h mapping tag (f_parentId task) = Some x
               \/ exists dep, In dep (match f_dependencies task with
                                      | Some deps => deps
                                      | None => []
                                      end)
                              /\ getNotionPageId h mapping tag dep = Some x))
  /\ (useDeps = false -> forall name, name <> "Parent item" -> payload !! name = None).
Proof.
  assert (Hmapped : forall id x, mappedId h mapping tag id = Some x ->
                                 x <> "" /\ getNotionPageId h mapping tag id = Some x).
  { intros id x. unfold mappedId.
    destruct (getNotionPageId h mapping tag id) as [n|]; [|discriminate].
    destruct (String.eqb n "") eqn:E; [discriminate|].
    intros [= <-]. apply String.eqb_neq in E. auto. }
  set (base := if truthy (f_parentId task)
               then match mappedId h mapping tag (f_parentId task) with
                    | Some p => <["Parent item" := [p]]> (∅ : relations)
                    | None => ∅
                    end
               else ∅).
  assert (Hbase : forall name ids, base !! name = Some ids ->
            name = "Parent item" /\ exists p, ids = [p]
              /\ mappedId h mapping tag (f_parentId task) = Some p).
  { intros name ids. unfold base.
    destruct (truthy (f_parentId task)); [|now rewrite lookup_empty].
    destruct (mappedId h mapping tag (f_parentId task)) as [p|];
      [|now rewrite lookup_empty].
    intros Hl. apply lookup_insert_Some in Hl.
    destruct Hl as [[<- <-]|[_ Hl]]; [eauto|now rewrite lookup_empty in Hl]. }
  assert (HbaseOk : forall name ids, base !! name = Some ids ->
            ids <> [] /\ forall x, In x ids ->
              x <> "" /\ (getNotionPageId h mapping tag (f_parentId task) = Some x
                          \/ exists dep, In dep (match f_dependencies task with
                                                 | Some deps => deps | None => [] end)
                                         /\ getNotionPageId h mapping tag dep = Some x)).
  { intros name ids Hl. destruct (Hbase _ _ Hl) as (_ & p & -> & Hp).
    split; [discriminate|]. intros x [<-|[]].
    destruct (Hmapped _ _ Hp). auto. }
  cbv zeta. unfold buildHierarchicalRelations. fold base.
  destruct (f_dependencies task) as [[|dep deps]|]; cbn zeta.
  1,3: split; [exact HbaseOk|];
       intros _ name Hname; destruct (base !! name) as [ids|] eqn:Hl; auto;
       destruct (Hbase _ _ Hl); congruence.
  destruct useDeps.
  - split; [|discriminate].
    destruct (0 <? List.length (omap (mappedId h mapping tag) (dep :: deps)))%nat eqn:Hlen;
      [|exact HbaseOk].
    intros name ids Hl. apply lookup_insert_Some in Hl.
    destruct Hl as [[_ <-]|[_ Hl]]; [|now apply HbaseOk in Hl].
    split.
    + intros Hnil. rewrite Hnil in Hlen. discriminate.
    + intros x Hx. apply list_elem_of_In, list_elem_of_omap in Hx.
      destruct Hx as (d & Hd & Hm). apply list_elem_of_In in Hd.
      destruct (Hmapped _ _ Hm). eauto.
  - split; [exact HbaseOk|].
    intros _ name Hname; destruct (base !! name) as [ids|] eqn:Hl; auto;
      destruct (Hbase _ _ Hl); congruence.
Qed.

(** A page as [reconstructHierarchyFromNotion] reads it.  [pg_taskid] and
    [pg_title] are the [plain_text] of the first fragment, [None] for
    undefined; a relation is the list of the ids it holds, [None] when the
    property is missing. *)
Record Page : Type := mkPage {
  pg_id : string;
  pg_taskid : option string;
  pg_title : option string;
  pg_parent : option (list string);
  pg_subitems : option (list string);
  pg_dependencies : option (list string)
}.

(** The record the first pass builds for a page. *)
Record RemoteTask : Type := mkRemoteTask {
  rt_id : string;
  rt_notionId : string;
  rt_title : string;
  rt_parentRelations : list string;
  rt_subItemRelations : list string;
  rt_dependencies : list string
}.

(** An entry of the reconstructed hierarchy; [hi_parentId] is [None] for
    null. *)
Record HierarchyInfo : Type := mkInfo {
  hi_notionId : string;
  hi_parentId : option string;
  hi_subtaskIds : list string;
  hi_title : string
}.

Definition orNil (o : option (list string)) : list string :=
  match o with Some l => l | None => [] end.

(** First pass: [tasksByNotionId].  The second index, by task id, is
    filled but never read; it is left out. *)
Definition indexPages (notionPages : list Page) : JSMap RemoteTask :=
  fold_left
    (fun tasksByNotionId page =>
       match pg_taskid page with
       | Some taskId =>
           if String.eqb taskId "" then tasksByNotionId
           else
             map_set (JStr (pg_id page))
               (mkRemoteTask taskId (pg_id page)
                  (match pg_title page with Some t => t | None => "" end)
                  (orNil (pg_parent page)) (orNil (pg_subitems page))
                  (orNil (pg_dependencies page)))
               tasksByNotionId
       | None => tasksByNotionId
       end)
    notionPages [].

(** The entry written for one task in the second pass. *)
Definition infoOf (tasksByNotionId : JSMap RemoteTask) (task : RemoteTask) : HierarchyInfo :=
  let parentTaskMasterId :=
    match rt_parentRelations task with
    | parentNotionId :: _ =>
        match map_get (JStr parentNotionId) tasksByNotionId with
        | Some parentTask => Some (rt_id parentTask)
        | None => None
        end
    | [] => None
    end in
  let subtaskIds :=
    fold_left
      (fun subtaskIds subRelation =>
         match map_get (JStr subRelation) tasksByNotionId with
         | Some subTask => subtaskIds ++ [rt_id subTask]
         | None => subtaskIds
         end)
      (rt_subItemRelations task) [] in
  mkInfo (rt_notionId task) parentTaskMasterId subtaskIds (rt_title task).

Definition reconstructHierarchyFromNotion (notionPages : list Page)
  : gmap string HierarchyInfo :=
  let tasksByNotionId := indexPages notionPages in
  fold_left
    (fun hierarchy task => <[rt_id task := infoOf tasksByNotionId task]> hierarchy)
    (List.map snd tasksByNotionId) ∅.

Lemma map_get_In {V : Type} (k : jsval) (v : V) (m : JSMap V) :
  map_get k m = Some v -> In v (List.map snd m).
Proof.
  induction m as [|[k' v'] m IH]; simpl; [discriminate|].
  destruct (jsval_eqb k k'); [intros [= ->]; now left|auto].
Qed.

Lemma map_set_values {V : Type} (P : V -> Prop) k v (m : JSMap V) :
  P v -> Forall P (List.map snd m) -> Forall P (List.map snd (map_set k v m)).
Proof.
  intros Hv. induction m as [|[k' v'] m IH]; simpl; intros H.
  - constructor; auto.
  - inversion H; subst. destruct (jsval_eqb k k'); simpl; constructor; auto.
Qed.

Lemma indexPages_sound (notionPages : list Page) :
  Forall (fun task => exists page,
              In page notionPages
              /\ pg_taskid page = Some (rt_id task)
              /\ rt_id task <> ""
              /\ rt_notionId task = pg_id page)
         (List.map snd (indexPages notionPages)).
Proof.
  unfold indexPages.
  assert (H : forall done todo (m : JSMap RemoteTask),
    Forall (fun task => exists page,
              In page (done ++ todo)
              /\ pg_taskid page = Some (rt_id task)
              /\ rt_id task <> ""
              /\ rt_notionId task = pg_id page) (List.map snd m) ->
    Forall (fun task => exists page,
              In page (done ++ todo)
              /\ pg_taskid page = Some (rt_id task)
              /\ rt_id task <> ""
              /\ rt_notionId task = pg_id page)
      (List.map snd (fold_left
        (fun tasksByNotionId page =>
           match pg_taskid page with
           | Some taskId =>
               if String.eqb taskId "" then tasksByNotionId
               else
                 map_set (JStr (pg_id page))
                   (mkRemoteTask taskId (pg_id page)
                      (match pg_title page with Some t => t | None => "" end)
                      (orNil (pg_parent page)) (orNil (pg_subitems page))
                      (orNil (pg_dependencies page)))
                   tasksByNotionId
           | None => tasksByNotionId
           end) todo m))).
  { intros done todo. revert done.
    induction todo as [|page todo IH]; intros done m Hm; [exact Hm|].
    cbn [fold_left].
    replace (done ++ page :: todo) with ((done ++ [page]) ++ todo) in *
      by now rewrite <- app_assoc.
    apply IH.
    destruct (pg_taskid page) as [taskId|] eqn:Hid; [|exact Hm].
    destruct (String.eqb taskId "") eqn:E; [exact Hm|].
    apply map_set_values; [|exact Hm].
    exists page. cbn. apply String.eqb_neq in E. repeat split; auto.
    apply in_or_app. left. apply in_or_app. right. now left. }
  apply (H [] notionPages []). constructor.
Qed.

Lemma hierarchy_fold_lookup (index : JSMap RemoteTask) (tasks : list RemoteTask) :
  forall (hierarchy : gmap string HierarchyInfo),
    let hierarchy' :=
      fold_left (fun hierarchy task => <[rt_id task := infoOf index task]> hierarchy)
                tasks hierarchy in
    (forall task, In task tasks -> is_Some (hierarchy' !! rt_id task))
    /\ (forall id, is_Some (hierarchy !! id) -> is_Some (hierarchy' !! id))
    /\ (forall id info, hierarchy' !! id = Some info ->
          hierarchy !! id = Some info
          \/ exists task, In task tasks /\ rt_id task = id /\ info = infoOf index task).
Proof.
  induction tasks as [|task tasks IH]; intros hierarchy; cbn [fold_left].
  - cbv zeta. repeat split; auto. intros task [].
  - destruct (IH (<[rt_id task := infoOf index task]> hierarchy)) as (H1 & H2 & H3).
    cbv zeta in *. repeat split.
    + intros t [<-|Hin]; [|auto]. apply H2. rewrite lookup_insert_eq. eauto.
    + intros id Hid. apply H2. apply lookup_insert_is_Some.
      destruct (decide (rt_id task = id)); auto.
    + intros id info Hl. apply H3 in Hl. destruct Hl as [Hl|(t & Hin & Hid & Hinfo)].
      * apply lookup_insert_Some in Hl. destruct Hl as [[<- <-]|[_ Hl]]; [|auto].
        right. exists task. repeat split; auto. now left.
      * right. exists t. repeat split; auto. now right.
Qed.

Lemma subtaskIds_fold_In (index : JSMap RemoteTask) (relations : list string) :
  forall acc s,
    In s (fold_left
            (fun subtaskIds subRelation =>
               match map_get (JStr subRelation) index with
               | Some subTask => subtaskIds ++ [rt_id subTask]
               | None => subtaskIds
               end) relations acc) ->
    In s acc \/ exists subTask, In subTask (List.map snd index) /\ rt_id subTask = s.
Proof.
  induction relations as [|r relations IH]; intros acc s Hin; cbn [fold_left] in Hin; auto.
  apply IH in Hin. destruct Hin as [Hin|Hin]; auto.
  destruct (map_get (JStr r) index) as [subTask|] eqn:Hget; auto.
  apply in_app_or in Hin. destruct Hin as [Hin|[<-|[]]]; auto.
  right. exists subTask. split; auto. eapply map_get_In; eauto.
Qed.

(** X25.  The reconstructed view is closed and points at real pages.  Every
    entry stands for a page of the input whose task-id marker is the
    entry's key; the parent of an entry, when it has one, and each of its
    subtasks are themselves keys of the view.  Pages without a task id have
    no entry. *)
Theorem reconstructed_hierarchy_closed (notionPages : list Page)
    (id : string) (info : HierarchyInfo) :
  reconstructHierarchyFromNotion notionPages !! id = Some info ->
  (exists page, In page notionPages
                /\ pg_taskid page = Some id
                /\ id <> ""
                /\ hi_notionId info = pg_id page)
  /\ (forall parent, hi_parentId info = Some parent ->
        is_Some (reconstructHierarchyFromNotion notionPages !! parent))
  /\ Forall (fun sub => is_Some (reconstructHierarchyFromNotion notionPages !! sub))
            (hi_subtaskIds info).
Proof.
  unfold reconstructHierarchyFromNotion. cbv zeta.
  set (index := indexPages notionPages).
  destruct (hierarchy_fold_lookup index (List.map snd index) ∅) as (Hkeys & _ & Horigin).
  cbv zeta in *. intros Hl.
  destruct (Horigin _ _ Hl) as [Hempty|(task & Hin & <- & ->)];
    [now rewrite lookup_empty in Hempty|].
  pose proof (indexPages_sound notionPages) as Hsound. fold index in Hsound.
  rewrite Forall_forall in Hsound. split; [|split].
  - destruct (Hsound _ Hin) as (page & Hp & Hid & Hne & Hn). exists page. auto.
  - intros parent. unfold infoOf. cbn [hi_parentId].
    destruct (rt_parentRelations task) as [|p ps]; [discriminate|].
    destruct (map_get (JStr p) index) as [parentTask|] eqn:Hget; [|discriminate].
    intros [= <-]. apply Hkeys. eapply map_get_In; eauto.
  - apply Forall_forall. intros sub Hsub. unfold infoOf in Hsub. cbn [hi_subtaskIds] in Hsub.
    apply subtaskIds_fold_In in Hsub. destruct Hsub as [[]|(subTask & Hs & <-)].
    now apply Hkeys.
Qed.

Definition samplePages : list Page :=
  [ mkPage "p1" (Some "1") (Some "Parent") None (Some ["p2"; "px"]) None;
    mkPage "p2" (Some "1.1") (Some "Child") (Some ["p1"]) None None;
    mkPage "p3" None (Some "No marker") None None None ].

Lemma reconstructed_hierarchy_closed_witness :
  (exists page, In page samplePages
                /\ pg_taskid page = Some "1.1"
                /\ "1.1" <> ""
                /\ hi_notionId (mkInfo "p2" (Some "1") [] "Child") = pg_id page)
  /\ (forall parent, hi_parentId (mkInfo "p2" (Some "1") [] "Child") = Some parent ->
        is_Some (reconstructHierarchyFromNotion samplePages !! parent))
  /\ Forall (fun sub => is_Some (reconstructHierarchyFromNotion samplePages !! sub))
            (hi_subtaskIds (mkInfo "p2" (Some "1") [] "Child")).
Proof.
  apply (reconstructed_hierarchy_closed samplePages "1.1" (mkInfo "p2" (Some "1") [] "Child")).
  vm_compute. reflexivity.
Defined.

(** *** Integrity validation ([validateHierarchyIntegrity]) *)

Inductive Issue : Type :=
| missing_in_notion (taskId : string) (title : jsval)
| parent_mismatch (taskId : string) (expectedParent : jsval) (actualParent : option string)
| orphaned_subtask (taskId : string) (parentId : string).

Record Stats : Type := mkStats {
  totalTasks : nat;
  validTasks : nat;
  orphanedSubtasks : nat;
  missingRelations : nat;
  circularDependencies : nat
}.

Record Report : Type := mkReport {
  isValid : bool;
  stats : Stats;
  issues : list Issue
}.

(** What the validation reads of an entry of [allTasks]. *)
Record LocalEntry : Type := mkLocalEntry {
  le_title : jsval;
  le_parentId : jsval;
  le_isRoot : bool
}.

(** The inner loop of the first pass, over the subtasks of [task]. *)
Definition collectSubtask (task : Task) (state : JSMap LocalEntry * nat)
           (subtask : Subtask) : JSMap LocalEntry * nat :=
  let '(allTasks, total) := state in
  (map_set (JStr (dotted (t_id task) (st_id subtask)))
           (mkLocalEntry (st_title subtask) (t_id task) false) allTasks,
   S total).

(** The body of the first loop: [allTasks] and the running [totalTasks]. *)
Definition collectTask (state : JSMap LocalEntry * nat) (task : Task)
  : JSMap LocalEntry * nat :=
  let '(allTasks, total) := state in
  let total := S total in
  let allTasks :=
    map_set (JStr (toString (t_id task)))
            (mkLocalEntry (t_title task) JUndefined true) allTasks in
  match t_subtasks task with
  | Some subtasks => fold_left (collectSubtask task) subtasks (allTasks, total)
  | None => (allTasks, total)
  end.

(** [tasks] is [None] when [taskMasterData.tasks] is falsy. *)
Definition collectTasks (tasks : option (list Task)) : JSMap LocalEntry * nat :=
  fold_left collectTask (match tasks with Some l => l | None => [] end) ([], 0%nat).

(** The body of the second loop for one entry. *)
Definition validateEntry (notionHierarchy : gmap string HierarchyInfo)
           (allTasks : JSMap LocalEntry)
           (state : list Issue * Stats) (entry : jsval * LocalEntry)
  : list Issue * Stats :=
  let '(issues, stats) := state in
  let '(key, task) := entry in
  let taskId := toString key in
  match notionHierarchy !! taskId with
  | None => (issues ++ [missing_in_notion taskId (le_title task)], stats)
  | Some notionInfo =>
      let '(issues, stats) :=
        if (negb (le_isRoot task) && truthy (le_parentId task))%bool then
          if match hi_parentId notionInfo with
             | Some actual => negb (String.eqb actual (toString (le_parentId task)))
             | None => true
             end
          then (issues ++ [parent_mismatch taskId (le_parentId task) (hi_parentId notionInfo)],
                mkStats (totalTasks stats) (validTasks stats) (orphanedSubtasks stats)
                        (S (missingRelations stats)) (circularDependencies stats))
          else (issues, stats)
        else (issues, stats) in
      let '(issues, stats) :=
        match hi_parentId notionInfo with
        | Some parentId =>
            if (negb (String.eqb parentId "") && negb (map_has (JStr parentId) allTasks))%bool
            then (issues ++ [orphaned_subtask taskId parentId],
                  mkStats (totalTasks stats) (validTasks stats) (S (orphanedSubtasks stats))
                          (missingRelations stats) (circularDependencies stats))
            else (issues, stats)
        | None => (issues, stats)
        end in
      (issues,
       mkStats (totalTasks stats) (S (validTasks stats)) (orphanedSubtasks stats)
               (missingRelations stats) (circularDependencies stats))
  end.

Definition validateHierarchyIntegrity (tasks : option (list Task))
           (notionHierarchy : gmap string HierarchyInfo) : Report :=
  let '(allTasks, total) := collectTasks tasks in
  let '(issues, stats) :=
    fold_left (validateEntry notionHierarchy allTasks) allTasks
              ([], mkStats total 0 0 0 0) in
  mkReport (Nat.eqb (List.length issues) 0) stats issues.

Definition isMissing (i : Issue) : bool :=
  match i with missing_in_notion _ _ => true | _ => false end.
Definition isMismatch (i : Issue) : bool :=
  match i with parent_mismatch _ _ _ => true | _ => false end.
Definition isOrphan (i : Issue) : bool :=
  match i with orphaned_subtask _ _ => true | _ => false end.

Definition count (f : Issue -> bool) (l : list Issue) : nat := List.length (List.filter f l).

Lemma count_app f l1 l2 : count f (l1 ++ l2) = (count f l1 + count f l2)%nat.
Proof. unfold count. now rewrite List.filter_app, length_app. Qed.

(** What one step of the second loop keeps. *)
Definition countersAgree (seen : nat) (state : list Issue * Stats) : Prop :=
  let '(issues, stats) := state in
  circularDependencies stats = 0%nat
  /\ missingRelations stats = count isMismatch issues
  /\ orphanedSubtasks stats = count isOrphan issues
  /\ (validTasks stats + count isMissing issues = seen)%nat
  /\ List.length issues
     = (count isMissing issues + count isMismatch issues + count isOrphan issues)%nat.

Lemma validateEntry_keeps notionHierarchy allTasks seen state entry :
  countersAgree seen state ->
  countersAgree (S seen) (validateEntry notionHierarchy allTasks state entry)
  /\ totalTasks (snd (validateEntry notionHierarchy allTasks state entry))
     = totalTasks (snd state).
Proof.
  destruct state as [issues stats], entry as [key task].
  unfold countersAgree, validateEntry. intros (C & M & O & V & L).
  destruct (notionHierarchy !! toString key) as [info|].
  - destruct (negb (le_isRoot task) && truthy (le_parentId task))%bool;
      [destruct (match hi_parentId info with
                 | Some actual => negb (String.eqb actual (toString (le_parentId task)))
                 | None => true
                 end)|];
      (destruct (hi_parentId info) as [p|];
       [destruct (negb (String.eqb p "") && negb (map_has (JStr p) allTasks))%bool|]);
      cbn [circularDependencies missingRelations orphanedSubtasks validTasks totalTasks snd];
      rewrite ?count_app, ?length_app; cbn; repeat split; try lia.
  - cbn [snd]. rewrite !count_app, length_app. cbn. repeat split; lia.
Qed.

Lemma validate_fold_keeps notionHierarchy allTasks entries : forall seen state,
  countersAgree seen state ->
  countersAgree (seen + List.length entries)
                (fold_left (validateEntry notionHierarchy allTasks) entries state)
  /\ totalTasks (snd (fold_left (validateEntry notionHierarchy allTasks) entries state))
     = totalTasks (snd state).
Proof.
  induction entries as [|entry entries IH]; intros seen state H; cbn [fold_left List.length].
  - now rewrite Nat.add_0_r.
  - destruct (validateEntry_keeps notionHierarchy allTasks seen state entry H) as [H1 H2].
    destruct (IH (S seen) _ H1) as [H3 H4].
    rewrite <- H2, <- Nat.add_succ_comm. auto.
Qed.

Lemma map_set_length {V : Type} (k : jsval) (v : V) (m : JSMap V) :
  (List.length m <= List.length (map_set k v m) <= S (List.length m))%nat.
Proof.
  induction m as [|[k' v'] m IH]; simpl; [lia|].
  destruct (jsval_eqb k k'); simpl; lia.
Qed.

Lemma collectSubtask_bound (task : Task) (sts : list Subtask) : forall state,
  (List.length (fst state) <= List.length (fst (fold_left (collectSubtask task) sts state)))%nat
  /\ (List.length (fst (fold_left (collectSubtask task) sts state))
      <= List.length (fst state) + List.length sts)%nat
  /\ snd (fold_left (collectSubtask task) sts state)
     = (snd state + List.length sts)%nat.
Proof.
  induction sts as [|st sts IH]; intros [m n]; cbn [fold_left List.length].
  - cbn. lia.
  - specialize (IH (collectSubtask task (m, n) st)).
    pose proof (map_set_length (JStr (dotted (t_id task) (st_id st)))
                  (mkLocalEntry (st_title st) (t_id task) false) m).
    cbn [collectSubtask fst snd] in *. lia.
Qed.

Definition sizeOf (t : Task) : nat :=
  S (match t_subtasks t with Some sts => List.length sts | None => 0%nat end).

Lemma collectTask_bound (state : JSMap LocalEntry * nat) (t : Task) :
  (List.length (fst state) <= List.length (fst (collectTask state t)))%nat
  /\ (List.length (fst (collectTask state t)) <= List.length (fst state) + sizeOf t)%nat
  /\ snd (collectTask state t) = (snd state + sizeOf t)%nat.
Proof.
  destruct state as [m n]. unfold collectTask, sizeOf.
  pose proof (map_set_length (JStr (toString (t_id t)))
                (mkLocalEntry (t_title t) JUndefined true) m) as H0.
  destruct (t_subtasks t) as [sts|].
  - pose proof (collectSubtask_bound t sts
                  (map_set (JStr (toString (t_id t)))
                     (mkLocalEntry (t_title t) JUndefined true) m, S n)) as H1.
    cbn [fst snd] in *. lia.
  - cbn [fst snd]. lia.
Qed.

Lemma collectTasks_bound (tasks : list Task) : forall state,
  (List.length (fst (fold_left collectTask tasks state))
   <= List.length (fst state) + list_sum (List.map sizeOf tasks))%nat
  /\ snd (fold_left collectTask tasks state)
     = (snd state + list_sum (List.map sizeOf tasks))%nat.
Proof.
  induction tasks as [|t tasks IH]; intros state.
  - cbn. lia.
  - specialize (IH (collectTask state t)).
    pose proof (collectTask_bound state t).
    change (fold_left collectTask (t :: tasks) state)
      with (fold_left collectTask tasks (collectTask state t)).
    change (list_sum (List.map sizeOf (t :: tasks)))
      with (sizeOf t + list_sum (List.map sizeOf tasks))%nat.
    lia.
Qed.

(** X26.  The report's counters add up.  [totalTasks] is the number of tasks and
    subtasks; every distinct local id is either reported missing or counted
    in [validTasks], also when a mismatch or an orphan is reported for it;
    [missingRelations] and [orphanedSubtasks] count the issues of their
    kind; [circularDependencies] is always 0; and the report is valid
    exactly when it lists no issue. *)
Theorem validation_counters (tasks : option (list Task))
    (notionHierarchy : gmap string HierarchyInfo) :
  let report := validateHierarchyIntegrity tasks notionHierarchy in
  totalTasks (stats report)
    = list_sum (List.map (fun t => S (match t_subtasks t with
                                      | Some sts => List.length sts
                                      | None => 0
                                      end))
                         (match tasks with Some l => l | None => [] end))
  /\ (validTasks (stats report) + count isMissing (issues report)
      <= totalTasks (stats report))%nat
  /\ validTasks (stats report) + count isMissing (issues report)
     = List.length (fst (collectTasks tasks))
  /\ missingRelations (stats report) = count isMismatch (issues report)
  /\ orphanedSubtasks (stats report) = count isOrphan (issues report)
  /\ circularDependencies (stats report) = 0%nat
  /\ List.length (issues report)
     = (count isMissing (issues report) + missingRelations (stats report)
        + orphanedSubtasks (stats report))%nat
  /\ (isValid report = true <-> issues report = []).
Proof.
  cbv zeta. unfold validateHierarchyIntegrity.
  pose proof (collectTasks_bound (match tasks with Some l => l | None => [] end)
                                 ([], 0%nat)) as Hc.
  fold (collectTasks tasks) in Hc. fold sizeOf.
  change (fun t : Task => S match t_subtasks t with
                            | Some sts => List.length sts
                            | None => 0%nat
                            end) with sizeOf.
  destruct (collectTasks tasks) as [allTasks total] eqn:Hcollect.
  cbn [fst snd List.length] in Hc.
  destruct (validate_fold_keeps notionHierarchy allTasks allTasks 0
              ([], mkStats total 0 0 0 0)) as [Hk Ht].
  { cbn. repeat split; reflexivity. }
  destruct (fold_left (validateEntry notionHierarchy allTasks) allTasks
                      ([], mkStats total 0 0 0 0)) as [found counters].
  cbn [snd totalTasks] in Ht. destruct Hk as (C & M & O & V & L).
  cbn [stats issues isValid fst].
  repeat split; try lia.
  - intros H. apply Nat.eqb_eq in H. now destruct found.
  - intros ->. reflexivity.
Qed.

(** *** Textual links ([buildNotionRelationProperties]) *)

(** A rich-text item [{ type: "text", text: { content, link } }]. *)
Record TextItem : Type := mkTextItem {
  ti_content : string;
  ti_link : option string
}.

(** [s.replace(/-/g, "")] *)
Fixpoint removeDashes (s : string) : string :=
  match s with
  | EmptyString => EmptyString
  | String c r => if Ascii.eqb c "-"%char then removeDashes r else String c (removeDashes r)
  end.

(** [getPageUrl(id)], [None] for undefined. *)
Definition getPageUrl (h : store) (mapping : outer) (tag : string) (id : jsval)
  : option string :=
  match getNotionPageId h mapping tag id with
  | Some pageId =>
      if String.eqb pageId "" then None
      else Some (String.append "https://www.notion.so/" (removeDashes pageId))
  | None => None
  end.

(** [buildRichTextLinks(ids, getPageUrl, separator)]: the callback of
    [forEach] runs on every id with its index. *)
Definition buildRichTextLinks (ids : list jsval) (getPageUrl : jsval -> option string)
           (separator : string) : list TextItem :=
  fold_left
    (fun result '(id, idx) =>
       let result := result ++ [mkTextItem (toString id) (getPageUrl id)] in
       if (negb (String.eqb separator "") && (idx <? List.length ids - 1)%nat)%bool
       then result ++ [mkTextItem separator None]
       else result)
    (combine ids (seq 0 (List.length ids))) [].

(** The text the items show, one after the other. *)
Definition shownText (items : list TextItem) : string :=
  fold_right (fun item text => String.append (ti_content item) text) "" items.

Lemma append_nil_r s : String.append s "" = s.
Proof. induction s as [|c s IH]; [reflexivity|]. change (String c (String.append s "") = String c s). now rewrite IH. Qed.

Lemma append_assoc (a b c : string) :
  String.append (String.append a b) c = String.append a (String.append b c).
Proof.
  induction a as [|x a IH]; [reflexivity|].
  change (String x (String.append (String.append a b) c)
          = String x (String.append a (String.append b c))).
  now rewrite IH.
Qed.

Lemma shownText_app l1 l2 :
  shownText (l1 ++ l2) = String.append (shownText l1) (shownText l2).
Proof.
  induction l1 as [|x l1 IH]; [reflexivity|].
  change (String.append (ti_content x) (shownText (l1 ++ l2))
          = String.append (String.append (ti_content x) (shownText l1)) (shownText l2)).
  now rewrite IH, append_assoc.
Qed.

Lemma concat_cons2 sep x y l :
  String.concat sep (x :: y :: l)
  = String.append x (String.append sep (String.concat sep (y :: l))).
Proof. reflexivity. Qed.

Lemma links_fold (total : nat) (getUrl : jsval -> option string) (separator : string)
      (rest : list jsval) : forall k acc,
  (k + List.length rest = total)%nat ->
  shownText
    (fold_left
       (fun result '(id, idx) =>
          let result := result ++ [mkTextItem (toString id) (getUrl id)] in
          if (negb (String.eqb separator "") && (idx <? total - 1)%nat)%bool
          then result ++ [mkTextItem separator None]
          else result)
       (combine rest (seq k (List.length rest))) acc)
  = String.append (shownText acc) (String.concat separator (List.map toString rest)).
Proof.
  induction rest as [|id rest IH]; intros k acc Hk.
  - cbn. now rewrite append_nil_r.
  - cbn [List.length seq combine fold_left List.map].
    cbn [List.length] in Hk. rewrite (IH (S k)) by lia. cbv zeta.
    destruct rest as [|id2 rest].
    + cbn [List.length] in Hk.
      replace (k <? total - 1)%nat with false
        by (symmetry; apply Nat.ltb_ge; lia).
      rewrite andb_false_r, shownText_app. cbn [List.map String.concat].
      cbn [shownText fold_right ti_content].
      now rewrite !append_nil_r.
    + cbn [List.length] in Hk.
      replace (k <? total - 1)%nat with true
        by (symmetry; apply Nat.ltb_lt; lia).
      rewrite andb_true_r.
      change (List.map toString (id2 :: rest))
        with (toString id2 :: List.map toString rest).
      rewrite (concat_cons2 separator (toString id)).
      destruct (String.eqb separator "") eqn:E; cbn [negb].
      * apply String.eqb_eq in E. subst separator.
        rewrite shownText_app. cbn [shownText fold_right ti_content].
        rewrite append_nil_r, !append_assoc. reflexivity.
      * rewrite !shownText_app. cbn [shownText fold_right ti_content].
        rewrite !append_nil_r, !append_assoc. reflexivity.
Qed.

(** X27.  The links read as a list.  The items built for a list of ids show the
    ids joined by the separator, with no separator before the first or
    after the last; an empty list gives no item. *)
Theorem links_show_joined_ids (ids : list jsval) (getUrl : jsval -> option string)
    (separator : string) :
  shownText (buildRichTextLinks ids getUrl separator)
  = String.concat separator (List.map toString ids).
Proof.
  exact (links_fold (List.length ids) getUrl separator ids 0 [] eq_refl).
Qed.

End Relations.

(** ** Database id normalisation ([formatAsUUID]) *)

Module Uuid.

(** [[0-9a-fA-F]] *)
Definition isHex (c : ascii) : bool :=
  let n := nat_of_ascii c in
  ((Nat.leb 48 n && Nat.leb n 57)
   || (Nat.leb 97 n && Nat.leb n 102)
   || (Nat.leb 65 n && Nat.leb n 70))%bool.

(** Reads [n] hexadecimal digits off the front of [s]. *)
Fixpoint takeHex (n : nat) (s : string) : option string :=
  match n with
  | O => Some s
  | S n =>
      match s with
      | String c r => if isHex c then takeHex n r else None
      | EmptyString => None
      end
  end.

Definition takeDash (s : string) : option string :=
  match s with
  | String c r => if Ascii.eqb c "-"%char then Some r else None
  | EmptyString => None
  end.

(** The test of
    [/^[0-9a-fA-F]{8}-[0-9a-fA-F]{4}-[0-9a-fA-F]{4}-[0-9a-fA-F]{4}-[0-9a-fA-F]{12}$/]. *)
Definition isUUID (s : string) : bool :=
  match takeHex 8 s with
  | Some s =>
    match takeDash s with
    | Some s =>
      match takeHex 4 s with
      | Some s =>
        match takeDash s with
        | Some s =>
          match takeHex 4 s with
          | Some s =>
            match takeDash s with
            | Some s =>
              match takeHex 4 s with
              | Some s =>
                match takeDash s with
                | Some s =>
                  match takeHex 12 s with
                  | Some EmptyString => true
                  | _ => false
                  end
                | None => false
                end
              | None => false
              end
            | None => false
            end
          | None => false
          end
        | None => false
        end
      | None => false
      end
    | None => false
    end
  | None => false
  end.

(** [s.replace(/[^0-9a-fA-F]/g, "")] *)
Fixpoint keepHex (s : string) : string :=
  match s with
  | EmptyString => EmptyString
  | String c r => if isHex c then String c (keepHex r) else keepHex r
  end.

(** [`${hex.slice(0, 8)}-${hex.slice(8, 12)}-${hex.slice(12, 16)}-${hex.slice(16, 20)}-${hex.slice(20)}`]
    for a string of 32 characters. *)
Definition dashed (hex : string) : string :=
  String.append (String.substring 0 8 hex)
    (String "-" (String.append (String.substring 8 4 hex)
      (String "-" (String.append (String.substring 12 4 hex)
        (String "-" (String.append (String.substring 16 4 hex)
          (String "-" (String.substring 20 (String.length hex - 20) hex)))))))).

(** [id] is a string: the callers pass [envVars.NOTION_DATABASE_ID || ""]. *)
Definition formatAsUUID (id : string) : string :=
  if isUUID id then id
  else
    let hex := keepHex id in
    if negb (Nat.eqb (String.length hex) 32) then id
    else dashed hex.

Fixpoint allHex (s : string) : bool :=
  match s with
  | EmptyString => true
  | String c r => (isHex c && allHex r)%bool
  end.

Lemma keepHex_allHex s : allHex (keepHex s) = true.
Proof.
  induction s as [|c s IH]; simpl; auto.
  destruct (isHex c) eqn:E; simpl; rewrite ?E; auto.
Qed.

Lemma keepHex_fixed s : allHex s = true -> keepHex s = s.
Proof.
  induction s as [|c s IH]; simpl; auto.
  intros H. apply andb_prop in H. destruct H as [Hc Hs]. now rewrite Hc, IH.
Qed.

Lemma allHex_substring s : forall n m,
  allHex s = true -> allHex (String.substring n m s) = true.
Proof.
  induction s as [|c s IH]; intros n m H.
  - destruct n, m; reflexivity.
  - simpl in H. apply andb_prop in H. destruct H as [Hc Hs].
    destruct n as [|n].
    + destruct m as [|m]; [reflexivity|]. simpl. now rewrite Hc, (IH 0%nat m Hs).
    + simpl. now apply IH.
Qed.

Lemma takeHex_app a : forall r,
  allHex a = true -> takeHex (String.length a) (String.append a r) = Some r.
Proof.
  induction a as [|c a IH]; intros r H; [reflexivity|].
  simpl in H. apply andb_prop in H. destruct H as [Hc Ha].
  change (takeHex (S (String.length a)) (String c (String.append a r)) = Some r).
  cbn [takeHex]. rewrite Hc. now apply IH.
Qed.

Lemma takeHex_all a : allHex a = true -> takeHex (String.length a) a = Some "".
Proof.
  induction a as [|c a IH]; intros H; [reflexivity|].
  simpl in H. apply andb_prop in H. destruct H as [Hc Ha].
  cbn [String.length takeHex]. rewrite Hc. now apply IH.
Qed.

Lemma keepHex_app a b : keepHex (String.append a b) = String.append (keepHex a) (keepHex b).
Proof.
  induction a as [|c a IH]; [reflexivity|].
  change (keepHex (String c (String.append a b))
          = String.append (keepHex (String c a)) (keepHex b)).
  cbn [keepHex]. destruct (isHex c); [|exact IH].
  change (String c (keepHex (String.append a b))
          = String c (String.append (keepHex a) (keepHex b))).
  now rewrite IH.
Qed.

Lemma dashed_shape hex :
  String.length hex = 32%nat -> allHex hex = true ->
  isUUID (dashed hex) = true /\ keepHex (dashed hex) = hex.
Proof.
  intros Hlen Hhex. unfold dashed. rewrite Hlen.
  change (32 - 20)%nat with 12%nat.
  assert (Hpart : forall n m, (n + m <= 32)%nat ->
            String.length (String.substring n m hex) = m
            /\ allHex (String.substring n m hex) = true).
  { intros n m Hnm. split.
    - apply RichText.substring_length_exact. lia.
    - now apply allHex_substring. }
  destruct (Hpart 0%nat 8%nat) as [L1 A1]; [lia|].
  destruct (Hpart 8%nat 4%nat) as [L2 A2]; [lia|].
  destruct (Hpart 12%nat 4%nat) as [L3 A3]; [lia|].
  destruct (Hpart 16%nat 4%nat) as [L4 A4]; [lia|].
  destruct (Hpart 20%nat 12%nat) as [L5 A5]; [lia|].
  split.
  - unfold isUUID.
    rewrite <- L1 at 1. rewrite (takeHex_app _ _ A1). cbn [takeDash]. rewrite Ascii.eqb_refl.
    rewrite <- L2 at 1. rewrite (takeHex_app _ _ A2). cbn [takeDash]. rewrite Ascii.eqb_refl.
    rewrite <- L3 at 1. rewrite (takeHex_app _ _ A3). cbn [takeDash]. rewrite Ascii.eqb_refl.
    rewrite <- L4 at 1. rewrite (takeHex_app _ _ A4). cbn [takeDash]. rewrite Ascii.eqb_refl.
    rewrite <- L5 at 1. now rewrite (takeHex_all _ A5).
  - assert (Hdash : forall r, keepHex (String "-" r) = keepHex r) by reflexivity.
    rewrite !keepHex_app, !Hdash, !keepHex_app, !Hdash.
    rewrite !keepHex_app, !Hdash, !keepHex_app, !Hdash.
    rewrite !keepHex_fixed by assumption.
    transitivity (String.substring 0 32 hex);
      [|rewrite <- Hlen; apply RichText.substring_all].
    rewrite (RichText.substring_add hex 0 8 24
             : String.substring 0 32 hex
               = String.append (String.substring 0 8 hex) (String.substring 8 24 hex)).
    rewrite (RichText.substring_add hex 8 4 20
             : String.substring 8 24 hex
               = String.append (String.substring 8 4 hex) (String.substring 12 20 hex)).
    rewrite (RichText.substring_add hex 12 4 16
             : String.substring 12 20 hex
               = String.append (String.substring 12 4 hex) (String.substring 16 16 hex)).
    rewrite (RichText.substring_add hex 16 4 12
             : String.substring 16 16 hex
               = String.append (String.substring 16 4 hex) (String.substring 20 12 hex)).
    reflexivity.
Qed.

(** X28.  Normalising a database id.  The result is the id itself or a string
    of the 8-4-4-4-12 form; normalising again changes nothing; and the
    result holds the hexadecimal digits of the id, in the same order. *)
Theorem formatAsUUID_normalises (id : string) :
  (formatAsUUID id = id \/ isUUID (formatAsUUID id) = true)
  /\ formatAsUUID (formatAsUUID id) = formatAsUUID id
  /\ keepHex (formatAsUUID id) = keepHex id.
Proof.
  assert (Hcases : formatAsUUID id = id
                   \/ (String.length (keepHex id) = 32%nat
                       /\ formatAsUUID id = dashed (keepHex id))).
  { unfold formatAsUUID. destruct (isUUID id); [now left|]. cbv zeta.
    destruct (Nat.eqb (String.length (keepHex id)) 32) eqn:Hl; cbn [negb]; [|now left].
    apply Nat.eqb_eq in Hl. now right. }
  destruct Hcases as [E|[Hl E]].
  - rewrite !E. repeat split; auto.
  - rewrite E.
    destruct (dashed_shape (keepHex id) Hl (keepHex_allHex id)) as [H1 H2].
    split; [now right|]. split; [|exact H2].
    unfold formatAsUUID at 1. now rewrite H1.
Qed.

(** A database id as copied from a Notion URL. *)
Example formatAsUUID_run :
  formatAsUUID "0123456789abcdef0123456789ABCDEF"
  = "01234567-89ab-cdef-0123-456789ABCDEF".
Proof. reflexivity. Qed.

End Uuid.
